(** * turbo-jelly: node coordinator and multiplex router

    A shallow embedding of [src/asi/cognitive/botnet.ts] (class
    [BotNetCoordinator]) and [src/asi/multiplex/router.ts] (class
    [MultiplexRouter]), with the records of [src/asi/types.ts].

    Conventions of the embedding:
    - a JavaScript [Map<string, V>] is an insertion-ordered association list
      ([JsMap]); [set] on a present key keeps the entry's position;
    - an object held in a map is identified with the key it is stored under:
      a field assignment through a reference obtained from the map is an
      update of that entry;
    - [Date.now()] is an explicit argument [now : Z]; timestamps are integers;
    - [emit] appends to an event trace, each payload a snapshot of the entity
      at emission time;
    - timers ([setInterval], [setTimeout]) are recorded in the state; a firing
      is an explicit operation. *)

From Stdlib Require Import String Ascii List ZArith Lia Bool PeanoNat.
Import ListNotations.
Open Scope string_scope.
Open Scope list_scope.

(** ** JavaScript strings: [includes] and [split(':')[0]] *)

Module JsString.

(** [hay.includes(needle)] *)
Fixpoint includes (hay needle : string) : bool :=
  String.prefix needle hay
  || match hay with
     | EmptyString => false
     | String _ rest => includes rest needle
     end.

(** [s.split(':')[0]]: the characters before the first colon (all of [s]
    when it has none). *)
Fixpoint split_head (s : string) : string :=
  match s with
  | EmptyString => EmptyString
  | String c rest =>
      if Ascii.eqb c ":"%char then EmptyString
      else String c (split_head rest)
  end.

(** Substring containment, as a proposition. *)
Definition is_substring (needle hay : string) : Prop :=
  exists pre post, hay = (pre ++ needle ++ post)%string.

Lemma prefix_spec (p s : string) :
  String.prefix p s = true <-> exists post, s = (p ++ post)%string.
Proof.
  revert s; induction p as [|c p IH]; intros s.
  - split; [intros _; exists s; reflexivity | intros _; now destruct s].
  - destruct s as [|d s]; simpl.
    + split; [discriminate | intros [post H]; discriminate].
    + destruct (Ascii.ascii_dec c d) as [->|Hne].
      * rewrite IH. split; intros [post H]; exists post.
        -- now rewrite H.
        -- now inversion H.
      * split; [discriminate | intros [post H]; inversion H; congruence].
Qed.

Lemma includes_spec (hay needle : string) :
  includes hay needle = true <-> is_substring needle hay.
Proof.
  unfold is_substring.
  induction hay as [|c hay IH]; cbn [includes].
  - rewrite orb_false_r, prefix_spec. split.
    + intros [post H]. exists EmptyString, post. exact H.
    + intros [pre [post H]]. destruct pre; [|discriminate].
      exists post. exact H.
  - rewrite orb_true_iff, IH, prefix_spec. split.
    + intros [[post H] | [pre [post H]]].
      * exists EmptyString, post. exact H.
      * exists (String c pre), post. simpl. now rewrite H.
    + intros [pre [post H]]. destruct pre as [|d pre].
      * left. exists post. exact H.
      * right. simpl in H. inversion H. now exists pre, post.
Qed.

End JsString.

(** ** Insertion-ordered maps with string keys *)

Module JsMap.

Definition t (V : Type) : Type := list (string * V).

Section Ops.
Context {V : Type}.

Definition empty : t V := [].

Fixpoint get (k : string) (m : t V) : option V :=
  match m with
  | [] => None
  | (k', v) :: r => if String.eqb k k' then Some v else get k r
  end.

(** [m.set(k, v)]: overwrite in place, or append a new entry. *)
Fixpoint set (k : string) (v : V) (m : t V) : t V :=
  match m with
  | [] => [(k, v)]
  | (k', v') :: r =>
      if String.eqb k k' then (k', v) :: r else (k', v') :: set k v r
  end.

(** [m.delete(k)] *)
Fixpoint delete (k : string) (m : t V) : t V :=
  match m with
  | [] => []
  | (k', v') :: r =>
      if String.eqb k k' then r else (k', v') :: delete k r
  end.

Definition keys (m : t V) : list string := map fst m.
Definition values (m : t V) : list V := map snd m.
Definition size (m : t V) : nat := length m.

Lemma get_set_same k v m : get k (set k v m) = Some v.
Proof.
  induction m as [|[k' v'] r IH]; simpl.
  - now rewrite String.eqb_refl.
  - destruct (String.eqb k k') eqn:E; simpl; rewrite E; auto.
Qed.

Lemma get_set_other k k' v m : k <> k' -> get k (set k' v m) = get k m.
Proof.
  intros Hne. induction m as [|[k0 v0] r IH]; simpl.
  - apply String.eqb_neq in Hne. now rewrite Hne.
  - destruct (String.eqb k' k0) eqn:E; simpl.
    + apply String.eqb_eq in E; subst k0.
      apply String.eqb_neq in Hne. now rewrite Hne.
    + now rewrite IH.
Qed.

Lemma keys_set_present k v m :
  get k m <> None -> keys (set k v m) = keys m.
Proof.
  induction m as [|[k0 v0] r IH]; simpl; [congruence|].
  destruct (String.eqb k k0) eqn:E; simpl; [reflexivity|].
  intros H. now rewrite IH.
Qed.

Lemma keys_set_absent k v m :
  get k m = None -> keys (set k v m) = keys m ++ [k].
Proof.
  induction m as [|[k0 v0] r IH]; simpl; [reflexivity|].
  destruct (String.eqb k k0) eqn:E; simpl; [discriminate|].
  intros H. now rewrite IH.
Qed.

Lemma get_None_not_In k m : get k m = None <-> ~ In k (keys m).
Proof.
  induction m as [|[k0 v0] r IH]; simpl; [tauto|].
  destruct (String.eqb k k0) eqn:E.
  - apply String.eqb_eq in E. subst. split; [discriminate | tauto].
  - apply String.eqb_neq in E. rewrite IH. split.
    + intros H [H1|H1]; [congruence | tauto].
    + tauto.
Qed.

Lemma NoDup_keys_set k v m : NoDup (keys m) -> NoDup (keys (set k v m)).
Proof.
  intros H. destruct (get k m) eqn:G.
  - rewrite keys_set_present; [exact H | congruence].
  - rewrite keys_set_absent by exact G.
    apply get_None_not_In in G.
    apply NoDup_rev in H. rewrite <- (rev_involutive (keys m ++ [k])).
    apply NoDup_rev. rewrite rev_app_distr. simpl.
    constructor; [rewrite <- in_rev; exact G | exact H].
Qed.

Lemma In_get k v m : NoDup (keys m) -> In (k, v) m -> get k m = Some v.
Proof.
  induction m as [|[k0 v0] r IH]; simpl; [tauto|].
  intros Hnd [Heq|Hin].
  - inversion Heq; subst. now rewrite String.eqb_refl.
  - inversion Hnd as [|? ? Hnot Hnd']; subst.
    destruct (String.eqb k k0) eqn:E.
    + apply String.eqb_eq in E; subst k0. exfalso. apply Hnot.
      change k with (fst (k, v)). now apply in_map.
    + now apply IH.
Qed.

Lemma get_In k v m : get k m = Some v -> In (k, v) m.
Proof.
  induction m as [|[k0 v0] r IH]; simpl; [discriminate|].
  destruct (String.eqb k k0) eqn:E.
  - apply String.eqb_eq in E; subst. intros H; inversion H. now left.
  - intros H. right. now apply IH.
Qed.

Lemma get_delete_other k k' m : k <> k' -> get k (delete k' m) = get k m.
Proof.
  intros Hne. induction m as [|[k0 v0] r IH]; simpl; [reflexivity|].
  destruct (String.eqb k' k0) eqn:E; simpl.
  - apply String.eqb_eq in E; subst k0.
    apply String.eqb_neq in Hne. now rewrite Hne.
  - now rewrite IH.
Qed.

Lemma get_delete_same k m : NoDup (keys m) -> get k (delete k m) = None.
Proof.
  induction m as [|[k0 v0] r IH]; simpl; [reflexivity|].
  intros Hnd. inversion Hnd as [|? ? Hnot Hnd']; subst.
  destruct (String.eqb k k0) eqn:E; simpl.
  - apply String.eqb_eq in E; subst k0. now apply get_None_not_In.
  - rewrite E. now apply IH.
Qed.

End Ops.

End JsMap.

(** ** Records of [types.ts] *)

Inductive NodeStatus := online | offline | busy.
Inductive TaskStatus := pending | processing | completed | failed.
Inductive ChannelType := agent2agent | org2org | sensor2agent | broadcast.
Inductive ChannelStatus := active | paused | terminated.

Definition NodeStatus_eqb (a b : NodeStatus) : bool :=
  match a, b with
  | online, online | offline, offline | busy, busy => true
  | _, _ => false
  end.

Definition TaskStatus_eqb (a b : TaskStatus) : bool :=
  match a, b with
  | pending, pending | processing, processing
  | completed, completed | failed, failed => true
  | _, _ => false
  end.

Definition ChannelStatus_eqb (a b : ChannelStatus) : bool :=
  match a, b with
  | active, active | paused, paused | terminated, terminated => true
  | _, _ => false
  end.

Lemma NodeStatus_eqb_eq a b : NodeStatus_eqb a b = true <-> a = b.
Proof. destruct a, b; simpl; split; congruence. Qed.

Lemma TaskStatus_eqb_eq a b : TaskStatus_eqb a b = true <-> a = b.
Proof. destruct a, b; simpl; split; congruence. Qed.

Lemma ChannelStatus_eqb_eq a b : ChannelStatus_eqb a b = true <-> a = b.
Proof. destruct a, b; simpl; split; congruence. Qed.

Module OrganizationContext.
(** [metadata: Record<string, any>] is opaque to both subsystems. *)
Record t := mk {
  orgId : string;
  name : string;
  tenantId : string;
  metadata : list (string * string)
}.
End OrganizationContext.

Module BotNetNode.
Record t := mk {
  nodeId : string;
  agentId : string;
  orgId : string;
  capabilities : list string;
  status : NodeStatus;
  lastHeartbeat : Z
}.

Definition with_status (s : NodeStatus) (n : t) : t :=
  mk (nodeId n) (agentId n) (orgId n) (capabilities n) s (lastHeartbeat n).

Definition with_lastHeartbeat (h : Z) (n : t) : t :=
  mk (nodeId n) (agentId n) (orgId n) (capabilities n) (status n) h.
End BotNetNode.

Module DistributedTask.
(** [payload: any] is never inspected; it is carried as an opaque string. *)
Record t := mk {
  taskId : string;
  type : string;
  priority : Z;
  sourceNode : string;
  targetNodes : list string;
  payload : string;
  status : TaskStatus;
  createdAt : Z;
  completedAt : option Z
}.

Definition with_status (s : TaskStatus) (k : t) : t :=
  mk (taskId k) (type k) (priority k) (sourceNode k) (targetNodes k)
     (payload k) s (createdAt k) (completedAt k).

Definition with_completedAt (c : option Z) (k : t) : t :=
  mk (taskId k) (type k) (priority k) (sourceNode k) (targetNodes k)
     (payload k) (status k) (createdAt k) c.

Definition with_targetNodes (l : list string) (k : t) : t :=
  mk (taskId k) (type k) (priority k) (sourceNode k) l
     (payload k) (status k) (createdAt k) (completedAt k).

Definition with_taskId (i : string) (k : t) : t :=
  mk i (type k) (priority k) (sourceNode k) (targetNodes k)
     (payload k) (status k) (createdAt k) (completedAt k).
End DistributedTask.

Module MultiplexChannel.
Record t := mk {
  sourceOrgId : string;
  targetOrgId : string;
  channelType : ChannelType;
  status : ChannelStatus
}.

Definition with_status (s : ChannelStatus) (c : t) : t :=
  mk (sourceOrgId c) (targetOrgId c) (channelType c) s.
End MultiplexChannel.

(** ** [Array.prototype.sort] with a comparator

    ECMAScript requires the sort to be stable; every stable sort gives the
    same array for a consistent comparator, so a stable insertion sort stands
    for it. [cmp a b <= 0] keeps [a] before [b]. *)

Section JsSort.
Context {A : Type} (cmp : A -> A -> Z).

Fixpoint sort_insert (x : A) (l : list A) : list A :=
  match l with
  | [] => [x]
  | y :: r => if (cmp x y <=? 0)%Z then x :: y :: r else y :: sort_insert x r
  end.

Definition js_sort (l : list A) : list A := fold_right sort_insert [] l.
End JsSort.

(** ** [BotNetCoordinator] (botnet.ts) *)

Module BotNetCoordinator.

Import BotNetNode.

Inductive Event :=
| node_registered (n : BotNetNode.t)
| node_unregistered (n : BotNetNode.t)
| node_offline (n : BotNetNode.t)
| node_online (n : BotNetNode.t)
| task_created (k : DistributedTask.t)
| task_failed (k : DistributedTask.t) (reason : string)
| task_assigned (k : DistributedTask.t) (n : BotNetNode.t)
| task_completed (k : DistributedTask.t) (n : BotNetNode.t).

(** [intervals] are the live [setInterval] timers (handle, nodeId);
    [timeouts] the pending [setTimeout] completions (taskId, nodeId), in
    scheduling order. *)
Record state := mkState {
  nodes : JsMap.t BotNetNode.t;
  tasks : JsMap.t DistributedTask.t;
  heartbeatTimers : JsMap.t nat;
  intervals : list (nat * string);
  timeouts : list (string * string);
  nextHandle : nat;
  events : list Event
}.

Definition heartbeatInterval : Z := 30000.

Definition init : state := mkState [] [] [] [] [] 0 [].

Definition set_nodes v st :=
  mkState v (tasks st) (heartbeatTimers st) (intervals st) (timeouts st)
          (nextHandle st) (events st).
Definition set_tasks v st :=
  mkState (nodes st) v (heartbeatTimers st) (intervals st) (timeouts st)
          (nextHandle st) (events st).
Definition set_timeouts v st :=
  mkState (nodes st) (tasks st) (heartbeatTimers st) (intervals st) v
          (nextHandle st) (events st).
Definition emit (e : Event) st :=
  mkState (nodes st) (tasks st) (heartbeatTimers st) (intervals st)
          (timeouts st) (nextHandle st) (events st ++ [e]).

Definition setupHeartbeat (id : string) (st : state) : state :=
  let h := nextHandle st in
  mkState (nodes st) (tasks st) (JsMap.set id h (heartbeatTimers st))
          (intervals st ++ [(h, id)]) (timeouts st) (S h) (events st).

Definition clearHeartbeat (id : string) (st : state) : state :=
  match JsMap.get id (heartbeatTimers st) with
  | Some h =>
      mkState (nodes st) (tasks st) (JsMap.delete id (heartbeatTimers st))
              (filter (fun e => negb (Nat.eqb (fst e) h)) (intervals st))
              (timeouts st) (nextHandle st) (events st)
  | None => st
  end.

Definition registerNode (node : BotNetNode.t) (st : state) : state :=
  let st := set_nodes (JsMap.set (nodeId node) node (nodes st)) st in
  let st := emit (node_registered node) st in
  setupHeartbeat (nodeId node) st.

Definition unregisterNode (id : string) (st : state) : state :=
  match JsMap.get id (nodes st) with
  | Some node =>
      let st := clearHeartbeat id st in
      let st := set_nodes (JsMap.delete id (nodes st)) st in
      emit (node_unregistered node) st
  | None => st
  end.

Definition checkHeartbeat (now : Z) (id : string) (st : state) : state :=
  match JsMap.get id (nodes st) with
  | None => st
  | Some node =>
      let timeSinceLastHeartbeat := (now - lastHeartbeat node)%Z in
      if (timeSinceLastHeartbeat >? heartbeatInterval * 2)%Z then
        let node := with_status offline node in
        emit (node_offline node) (set_nodes (JsMap.set id node (nodes st)) st)
      else st
  end.

Definition heartbeat (now : Z) (id : string) (st : state) : state :=
  match JsMap.get id (nodes st) with
  | Some node =>
      let node := with_lastHeartbeat now node in
      if NodeStatus_eqb (status node) offline then
        let node := with_status online node in
        emit (node_online node) (set_nodes (JsMap.set id node (nodes st)) st)
      else set_nodes (JsMap.set id node (nodes st)) st
  | None => st
  end.

(** The capable nodes, as map entries (key, node) in registry order. *)
Definition hasCapabilities (task : DistributedTask.t) (node : BotNetNode.t)
  : bool :=
  existsb (fun target =>
             JsString.includes target (nodeId node)
             || JsString.includes target (orgId node))
          (DistributedTask.targetNodes task).

Fixpoint findCapableNodes (ns : JsMap.t BotNetNode.t)
         (task : DistributedTask.t) : list (string * BotNetNode.t) :=
  match ns with
  | [] => []
  | (k, node) :: r =>
      if negb (NodeStatus_eqb (status node) online)
      then findCapableNodes r task
      else if hasCapabilities task node
           then (k, node) :: findCapableNodes r task
           else findCapableNodes r task
  end.

Definition selectNodes_cmp (a b : string * BotNetNode.t) : Z :=
  if NodeStatus_eqb (status (snd a)) online
     && negb (NodeStatus_eqb (status (snd b)) online) then (-1)%Z
  else if negb (NodeStatus_eqb (status (snd a)) online)
          && NodeStatus_eqb (status (snd b)) online then 1%Z
  else 0%Z.

Definition selectNodes (capableNodes : list (string * BotNetNode.t))
           (task : DistributedTask.t) : list (string * BotNetNode.t) :=
  let sorted := js_sort selectNodes_cmp capableNodes in
  firstn (length (DistributedTask.targetNodes task)) sorted.

Definition assignTask (task : DistributedTask.t)
           (entry : string * BotNetNode.t) (st : state) : state :=
  let node := with_status busy (snd entry) in
  let st := set_nodes (JsMap.set (fst entry) node (nodes st)) st in
  let st := emit (task_assigned task node) st in
  set_timeouts (timeouts st ++ [(DistributedTask.taskId task, nodeId node)])
               st.

(** [createTask] is [async]; its only suspension points are the [await]s
    on [assignTask], which settles at once, so the assignments follow one
    another with nothing but pending microtasks of other code in between.
    The embedding runs the call to its end. No path throws: the result is
    always a state. *)
Definition createTask (task : DistributedTask.t) (st : state) : state :=
  let st :=
    set_tasks (JsMap.set (DistributedTask.taskId task) task (tasks st)) st in
  let st := emit (task_created task) st in
  let capableNodes := findCapableNodes (nodes st) task in
  match capableNodes with
  | [] =>
      let task := DistributedTask.with_status failed task in
      let st :=
        set_tasks (JsMap.set (DistributedTask.taskId task) task (tasks st))
                  st in
      emit (task_failed task "no_capable_nodes") st
  | _ :: _ =>
      let selectedNodes := selectNodes capableNodes task in
      fold_left (fun st node => assignTask task node st) selectedNodes st
  end.

Definition completeTask (now : Z) (taskId nodeId : string) (st : state)
  : state :=
  match JsMap.get taskId (tasks st), JsMap.get nodeId (nodes st) with
  | Some task, Some node =>
      let task := DistributedTask.with_status completed task in
      let task := DistributedTask.with_completedAt (Some now) task in
      let node := with_status online node in
      let st := set_tasks (JsMap.set taskId task (tasks st)) st in
      let st := set_nodes (JsMap.set nodeId node (nodes st)) st in
      emit (task_completed task node) st
  | _, _ => st
  end.

(** The callback of the [i]-th pending [setTimeout] runs:
    [this.completeTask(task.taskId, node.nodeId)]. *)
Definition fireCompletion (now : Z) (i : nat) (st : state) : state :=
  match nth_error (timeouts st) i with
  | Some (taskId, nodeId) =>
      completeTask now taskId nodeId
        (set_timeouts (firstn i (timeouts st) ++ skipn (S i) (timeouts st))
                      st)
  | None => st
  end.

(** The callback of a live [setInterval] timer runs
    [this.checkHeartbeat(nodeId)]. *)
Definition fireInterval (now : Z) (h : nat) (st : state) : state :=
  match find (fun e => Nat.eqb (fst e) h) (intervals st) with
  | Some (_, id) => checkHeartbeat now id st
  | None => st
  end.

Record Stats := mkStats {
  totalNodes : nat;
  onlineNodes : nat;
  busyNodes : nat;
  offlineNodes : nat;
  totalTasks : nat;
  pendingTasks : nat;
  processingTasks : nat;
  completedTasks : nat;
  failedTasks : nat
}.

Definition count_nodes (s : NodeStatus) (st : state) : nat :=
  length (filter (fun n => NodeStatus_eqb (status n) s)
                 (JsMap.values (nodes st))).

Definition count_tasks (s : TaskStatus) (st : state) : nat :=
  length (filter (fun k => TaskStatus_eqb (DistributedTask.status k) s)
                 (JsMap.values (tasks st))).

Definition getStats (st : state) : Stats :=
  mkStats (length (JsMap.values (nodes st)))
          (count_nodes online st) (count_nodes busy st)
          (count_nodes offline st)
          (length (JsMap.values (tasks st)))
          (count_tasks pending st) (count_tasks processing st)
          (count_tasks completed st) (count_tasks failed st).

Definition getOnlineNodes (st : state) : list BotNetNode.t :=
  filter (fun n => NodeStatus_eqb (status n) online)
         (JsMap.values (nodes st)).

Definition getPendingTasks (st : state) : list DistributedTask.t :=
  filter (fun k => TaskStatus_eqb (DistributedTask.status k) pending)
         (JsMap.values (tasks st)).

(** The operations a caller or a timer can perform on the coordinator. *)
Inductive op :=
| RegisterNode (node : BotNetNode.t)
| UnregisterNode (id : string)
| Heartbeat (now : Z) (id : string)
| CreateTask (task : DistributedTask.t)
| CompleteTask (now : Z) (taskId nodeId : string)
| CheckHeartbeat (now : Z) (id : string)
| FireInterval (now : Z) (h : nat)
| FireCompletion (now : Z) (i : nat).

Definition step (o : op) (st : state) : state :=
  match o with
  | RegisterNode node => registerNode node st
  | UnregisterNode id => unregisterNode id st
  | Heartbeat now id => heartbeat now id st
  | CreateTask task => createTask task st
  | CompleteTask now t n => completeTask now t n st
  | CheckHeartbeat now id => checkHeartbeat now id st
  | FireInterval now h => fireInterval now h st
  | FireCompletion now i => fireCompletion now i st
  end.

Definition run (ops : list op) (st : state) : state :=
  fold_left (fun st o => step o st) ops st.

End BotNetCoordinator.

(** ** [MultiplexRouter] (router.ts) *)

Module MultiplexRouter.

Import MultiplexChannel.

Inductive Event :=
| org_registered (o : OrganizationContext.t)
| channel_created (c : MultiplexChannel.t)
| channel_paused (c : MultiplexChannel.t)
| channel_resumed (c : MultiplexChannel.t)
| task_queued (k : DistributedTask.t)
| task_routing (k : DistributedTask.t) (c : MultiplexChannel.t)
| task_delivered (k : DistributedTask.t) (c : MultiplexChannel.t).

(** [deliveries] are the pending [setTimeout] deliveries, in scheduling
    order. *)
Record state := mkState {
  channels : JsMap.t MultiplexChannel.t;
  organizations : JsMap.t OrganizationContext.t;
  messageQueue : list DistributedTask.t;
  deliveries : list (DistributedTask.t * MultiplexChannel.t);
  events : list Event
}.

Definition init : state := mkState [] [] [] [] [].

Definition set_channels v st :=
  mkState v (organizations st) (messageQueue st) (deliveries st) (events st).
Definition set_organizations v st :=
  mkState (channels st) v (messageQueue st) (deliveries st) (events st).
Definition set_messageQueue v st :=
  mkState (channels st) (organizations st) v (deliveries st) (events st).
Definition set_deliveries v st :=
  mkState (channels st) (organizations st) (messageQueue st) v (events st).
Definition emit (e : Event) st :=
  mkState (channels st) (organizations st) (messageQueue st) (deliveries st)
          (events st ++ [e]).

(** A call either returns (with the new state) or throws. *)
Inductive result (A : Type) :=
| Ok (a : A)
| Throw (msg : string).
Arguments Ok {A} a.
Arguments Throw {A} msg.

Definition channelType_str (ty : ChannelType) : string :=
  match ty with
  | agent2agent => "agent2agent"
  | org2org => "org2org"
  | sensor2agent => "sensor2agent"
  | broadcast => "broadcast"
  end.

(** [`${sourceOrgId}->${targetOrgId}:${channelType}`] *)
Definition channelId (sourceOrgId targetOrgId : string) (ty : ChannelType)
  : string :=
  (sourceOrgId ++ "->" ++ targetOrgId ++ ":" ++ channelType_str ty)%string.

Definition registerOrganization (org : OrganizationContext.t) (st : state)
  : state :=
  emit (org_registered org)
       (set_organizations
          (JsMap.set (OrganizationContext.orgId org) org (organizations st))
          st).

Definition createChannel (sourceOrgId targetOrgId : string)
           (ty : ChannelType) (st : state) : string * state :=
  let id := channelId sourceOrgId targetOrgId ty in
  let channel := MultiplexChannel.mk sourceOrgId targetOrgId ty active in
  let st := set_channels (JsMap.set id channel (channels st)) st in
  (id, emit (channel_created channel) st).

Fixpoint findChannels_loop (cs : JsMap.t MultiplexChannel.t)
         (sourceOrgId : string) (targetOrgIds : list string)
  : list MultiplexChannel.t :=
  match targetOrgIds with
  | [] => []
  | targetOrgId :: r =>
      let id :=
        (sourceOrgId ++ "->" ++ targetOrgId ++ ":agent2agent")%string in
      match JsMap.get id cs with
      | Some channel =>
          if ChannelStatus_eqb (status channel) active
          then channel :: findChannels_loop cs sourceOrgId r
          else findChannels_loop cs sourceOrgId r
      | None => findChannels_loop cs sourceOrgId r
      end
  end.

Definition findChannels (task : DistributedTask.t) (st : state)
  : list MultiplexChannel.t :=
  let sourceOrgId :=
    JsString.split_head (DistributedTask.sourceNode task) in
  let targetOrgIds :=
    map JsString.split_head (DistributedTask.targetNodes task) in
  findChannels_loop (channels st) sourceOrgId targetOrgIds.

(** [route] is [async]: its [throw] is the rejection of the promise it
    returns, settled before the call returns and before any write. *)
Definition route (task : DistributedTask.t) (st : state) : result state :=
  match JsMap.get (JsString.split_head (DistributedTask.sourceNode task))
                  (organizations st) with
  | None =>
      Throw ("Source organization not found: "
             ++ DistributedTask.sourceNode task)%string
  | Some _ =>
      match findChannels task st with
      | [] =>
          let st := set_messageQueue (messageQueue st ++ [task]) st in
          Ok (emit (task_queued task) st)
      | channel :: _ =>
          let st := emit (task_routing task channel) st in
          Ok (set_deliveries (deliveries st ++ [(task, channel)]) st)
      end
  end.

(** The callback of the first pending delivery runs. *)
Definition fireDelivery (st : state) : state :=
  match deliveries st with
  | [] => st
  | (task, channel) :: r =>
      emit (task_delivered task channel) (set_deliveries r st)
  end.

Definition broadcastTask (task : DistributedTask.t) (orgId : string)
  : DistributedTask.t :=
  DistributedTask.with_taskId
    (DistributedTask.taskId task ++ "-" ++ orgId)%string
    (DistributedTask.with_targetNodes [(orgId ++ ":broadcast")%string] task).

Fixpoint broadcast_loop (task : DistributedTask.t) (sourceOrgId : string)
         (orgs : list (string * OrganizationContext.t)) (st : state)
  : result state :=
  match orgs with
  | [] => Ok st
  | (orgId, _) :: r =>
      if negb (String.eqb orgId sourceOrgId) then
        match route (broadcastTask task orgId) st with
        | Ok st => broadcast_loop task sourceOrgId r st
        | Throw msg => Throw msg
        end
      else broadcast_loop task sourceOrgId r st
  end.

Definition broadcast (task : DistributedTask.t) (st : state)
  : result state :=
  broadcast_loop task
    (JsString.split_head (DistributedTask.sourceNode task))
    (organizations st) st.

Definition getChannelStatus (id : string) (st : state)
  : option MultiplexChannel.t :=
  JsMap.get id (channels st).

Definition pauseChannel (id : string) (st : state) : state :=
  match JsMap.get id (channels st) with
  | Some channel =>
      let channel := with_status paused channel in
      emit (channel_paused channel)
           (set_channels (JsMap.set id channel (channels st)) st)
  | None => st
  end.

(** How a run of the loop of [processQueue] ends: the loop exits
    ([Finished]), a [route] throws and the promise is rejected
    ([Rejected]), or the iterations allowed are used up with the queue
    still non-empty ([OutOfFuel]). *)
Inductive outcome :=
| Finished (st : state)
| Rejected (msg : string) (st : state)
| OutOfFuel (st : state).

(** [while (queue.length > 0) { task = queue.shift(); await route(task) }].
    [resumeChannel] calls it without awaiting: the call returns at the first
    [await], and the remaining iterations run as microtasks, before any
    timer or I/O callback.
    [route] has no suspension point of its own, so each [await] resumes in
    the next microtask with the state [route] left; [fuel] bounds the
    number of iterations. *)
Fixpoint processQueue (fuel : nat) (st : state) : outcome :=
  match messageQueue st with
  | [] => Finished st
  | task :: rest =>
      match fuel with
      | O => OutOfFuel st
      | S fuel =>
          match route task (set_messageQueue rest st) with
          | Ok st => processQueue fuel st
          | Throw msg => Rejected msg (set_messageQueue rest st)
          end
      end
  end.

Definition resumeChannel (fuel : nat) (id : string) (st : state)
  : outcome :=
  match JsMap.get id (channels st) with
  | Some channel =>
      let channel := with_status active channel in
      let st := set_channels (JsMap.set id channel (channels st)) st in
      let st := emit (channel_resumed channel) st in
      processQueue fuel st
  | None => Finished st
  end.

Record Stats := mkStats {
  stat_organizations : nat;
  stat_channels : nat;
  activeChannels : nat;
  queuedTasks : nat
}.

Definition getStats (st : state) : Stats :=
  mkStats (JsMap.size (organizations st)) (JsMap.size (channels st))
          (length (filter (fun c => ChannelStatus_eqb (status c) active)
                          (JsMap.values (channels st))))
          (length (messageQueue st)).

(** Every record is stored under the identifier of its own triple: what
    [createChannel], the only writer of keys, establishes. *)
Definition channels_wf (cs : JsMap.t MultiplexChannel.t) : Prop :=
  forall k c, In (k, c) cs ->
              k = channelId (sourceOrgId c) (targetOrgId c) (channelType c).

End MultiplexRouter.


(** * Properties of the node coordinator *)

Module CoordinatorCorrect.

Import BotNetNode BotNetCoordinator.

(** ** Scenario data *)

Definition n1 : BotNetNode.t := BotNetNode.mk "n1" "a1" "o1" [] online 0.

Definition t1 : DistributedTask.t :=
  DistributedTask.mk "t1" "compute" 1 "o1:n1" ["o1:n1"] "" pending 0 None.

Definition t2 : DistributedTask.t :=
  DistributedTask.mk "t2" "compute" 1 "o1:n1" ["o9:ghost"] "" pending 0 None.

(** [n1] registered, then assigned [t1]: it is busy, last heartbeat at 0. *)
Definition st_n1_busy : state := run [RegisterNode n1; CreateTask t1] init.

(** [n1] registered, then [t2] submitted with no capable node: [t2] failed. *)
Definition st_t2_failed : state := run [RegisterNode n1; CreateTask t2] init.

(** ** Liveness check *)

Lemma checkHeartbeat_absent now id st :
  JsMap.get id (nodes st) = None -> checkHeartbeat now id st = st.
Proof. unfold checkHeartbeat. now intros ->. Qed.

(** C1 (as the code has it). A liveness check on a registered node marks it
    offline and emits [node:offline] exactly when more than twice the
    heartbeat interval has passed since its last heartbeat, whatever its
    status, [busy] included; otherwise the check changes nothing and emits
    nothing. *)
Theorem checkHeartbeat_offline_iff_stale now id node st :
  JsMap.get id (nodes st) = Some node ->
  ((now - lastHeartbeat node > 2 * heartbeatInterval)%Z ->
     JsMap.get id (nodes (checkHeartbeat now id st))
       = Some (with_status offline node)
     /\ events (checkHeartbeat now id st)
        = events st ++ [node_offline (with_status offline node)])
  /\ ((now - lastHeartbeat node <= 2 * heartbeatInterval)%Z ->
        checkHeartbeat now id st = st).
Proof.
  intros Hget. unfold checkHeartbeat. rewrite Hget. cbv zeta.
  replace (heartbeatInterval * 2)%Z with (2 * heartbeatInterval)%Z by lia.
  split; intros H.
  - apply Z.gt_lt, Z.gtb_lt in H. rewrite H. simpl. split.
    + apply JsMap.get_set_same.
    + reflexivity.
  - destruct (Z.gtb_spec (now - lastHeartbeat node) (2 * heartbeatInterval));
      [lia | reflexivity].
Qed.

(** The busy node [n1] of [st_n1_busy], silent since 0, checked at 60001. *)
Lemma checkHeartbeat_offline_iff_stale_witness :
  JsMap.get "n1" (nodes (checkHeartbeat 60001 "n1" st_n1_busy))
    = Some (with_status offline (with_status busy n1))
  /\ events (checkHeartbeat 60001 "n1" st_n1_busy)
     = events st_n1_busy
       ++ [node_offline (with_status offline (with_status busy n1))].
Proof.
  apply (checkHeartbeat_offline_iff_stale 60001 "n1" (with_status busy n1)
           st_n1_busy).
  - reflexivity.
  - reflexivity.
Defined.

(** C1 (as stated) fails: the timer of the busy node [n1] fires at 60001 and
    the node goes from [busy] to [offline], with a [node:offline] event. *)
Lemma busy_node_marked_offline :
  option_map status (JsMap.get "n1" (nodes st_n1_busy)) = Some busy
  /\ option_map status
       (JsMap.get "n1" (nodes (step (FireInterval 60001 0) st_n1_busy)))
     = Some offline
  /\ last (events (step (FireInterval 60001 0) st_n1_busy))
          (node_registered n1)
     = node_offline (with_status offline (with_status busy n1)).
Proof. repeat split; reflexivity. Qed.

(** ** Task lifecycle *)

Lemma fold_assignTask_tasks task sel st :
  tasks (fold_left (fun st node => assignTask task node st) sel st) = tasks st.
Proof.
  revert st; induction sel as [|e sel IH]; intros st; simpl; [reflexivity|].
  now rewrite IH.
Qed.

Lemma unregisterNode_timeouts id st :
  timeouts (unregisterNode id st) = timeouts st.
Proof.
  unfold unregisterNode, clearHeartbeat.
  destruct (JsMap.get id (nodes st)); [|reflexivity].
  now destruct (JsMap.get id (heartbeatTimers st)).
Qed.

Lemma unregisterNode_tasks id st : tasks (unregisterNode id st) = tasks st.
Proof.
  unfold unregisterNode, clearHeartbeat.
  destruct (JsMap.get id (nodes st)); [|reflexivity].
  now destruct (JsMap.get id (heartbeatTimers st)).
Qed.

Lemma unregisterNode_get_same id st :
  NoDup (JsMap.keys (nodes st)) ->
  JsMap.get id (nodes (unregisterNode id st)) = None.
Proof.
  intros Hnd. unfold unregisterNode, clearHeartbeat.
  destruct (JsMap.get id (nodes st)) eqn:G; [|exact G].
  destruct (JsMap.get id (heartbeatTimers st)); simpl;
    now apply JsMap.get_delete_same.
Qed.

(** C10. [completeTask] on a task or a node that is not in its map changes
    nothing and emits nothing; so a completion that fires after its node was
    unregistered leaves every task record, every node and the event trace as
    they were. *)
Theorem completeTask_missing_is_noop now tid nid st :
  (JsMap.get tid (tasks st) = None \/ JsMap.get nid (nodes st) = None ->
   completeTask now tid nid st = st)
  /\ (NoDup (JsMap.keys (nodes st)) ->
      completeTask now tid nid (unregisterNode nid st) = unregisterNode nid st
      /\ forall i,
          nth_error (timeouts st) i = Some (tid, nid) ->
          tasks (fireCompletion now i (unregisterNode nid st)) = tasks st
          /\ nodes (fireCompletion now i (unregisterNode nid st))
             = nodes (unregisterNode nid st)
          /\ events (fireCompletion now i (unregisterNode nid st))
             = events (unregisterNode nid st)).
Proof.
  assert (Hnoop : forall st',
             JsMap.get tid (tasks st') = None
             \/ JsMap.get nid (nodes st') = None ->
             completeTask now tid nid st' = st').
  { intros st' [H|H]; unfold completeTask; rewrite H; [reflexivity|].
    now destruct (JsMap.get tid (tasks st')). }
  split; [apply Hnoop|].
  intros Hnd.
  pose proof (unregisterNode_get_same nid st Hnd) as Hgone.
  split; [apply Hnoop; now right|].
  intros i Hi. unfold fireCompletion.
  rewrite unregisterNode_timeouts, Hi.
  rewrite Hnoop by (right; exact Hgone).
  simpl. now rewrite unregisterNode_tasks.
Qed.

(** [n1] is assigned [t1], unregistered, and then the completion fires. *)
Lemma completeTask_missing_is_noop_witness :
  completeTask 100 "t9" "n1" st_n1_busy = st_n1_busy
  /\ completeTask 100 "t1" "n1" (unregisterNode "n1" st_n1_busy)
    = unregisterNode "n1" st_n1_busy
  /\ forall i,
      nth_error (timeouts st_n1_busy) i = Some ("t1", "n1") ->
      tasks (fireCompletion 100 i (unregisterNode "n1" st_n1_busy))
        = tasks st_n1_busy
      /\ nodes (fireCompletion 100 i (unregisterNode "n1" st_n1_busy))
         = nodes (unregisterNode "n1" st_n1_busy)
      /\ events (fireCompletion 100 i (unregisterNode "n1" st_n1_busy))
         = events (unregisterNode "n1" st_n1_busy).
Proof.
  split.
  - apply (completeTask_missing_is_noop 100 "t9" "n1" st_n1_busy).
    left; reflexivity.
  - apply (completeTask_missing_is_noop 100 "t1" "n1" st_n1_busy).
    repeat constructor; simpl; tauto.
Defined.

(** The task identifier an operation writes a record for, if any. *)
Definition written_task (o : op) (st : state) : option string :=
  match o with
  | CreateTask task => Some (DistributedTask.taskId task)
  | CompleteTask _ tid _ => Some tid
  | FireCompletion _ i => option_map fst (nth_error (timeouts st) i)
  | _ => None
  end.

Definition is_createTask (o : op) : bool :=
  match o with CreateTask _ => true | _ => false end.

Lemma createTask_get_other task tid st :
  DistributedTask.taskId task <> tid ->
  JsMap.get tid (tasks (createTask task st)) = JsMap.get tid (tasks st).
Proof.
  intros Hne. unfold createTask. cbv zeta.
  destruct (findCapableNodes _ task) eqn:E.
  - simpl. rewrite !JsMap.get_set_other by congruence. reflexivity.
  - rewrite fold_assignTask_tasks. simpl.
    now rewrite JsMap.get_set_other by congruence.
Qed.

Lemma completeTask_get_other now tid' nid tid st :
  tid' <> tid ->
  JsMap.get tid (tasks (completeTask now tid' nid st))
    = JsMap.get tid (tasks st).
Proof.
  intros Hne. unfold completeTask.
  destruct (JsMap.get tid' (tasks st)); [|reflexivity].
  destruct (JsMap.get nid (nodes st)); [|reflexivity].
  simpl. now rewrite JsMap.get_set_other by congruence.
Qed.

Lemma completeTask_keeps_completed now tid nid t st :
  JsMap.get tid (tasks st) = Some t ->
  DistributedTask.status t = completed ->
  exists t', JsMap.get tid (tasks (completeTask now tid nid st)) = Some t'
             /\ DistributedTask.status t' = completed.
Proof.
  intros Hget Hst. unfold completeTask. rewrite Hget.
  destruct (JsMap.get nid (nodes st)).
  - simpl. rewrite JsMap.get_set_same. eexists; split; reflexivity.
  - exists t. now split.
Qed.

Lemma checkHeartbeat_tasks now id st :
  tasks (checkHeartbeat now id st) = tasks st.
Proof.
  unfold checkHeartbeat. destruct (JsMap.get id (nodes st)); [|reflexivity].
  now destruct (_ >? _)%Z.
Qed.

Lemma heartbeat_tasks now id st : tasks (heartbeat now id st) = tasks st.
Proof.
  unfold heartbeat. destruct (JsMap.get id (nodes st)); [|reflexivity].
  now destruct (NodeStatus_eqb _ _).
Qed.

(** C3 (as the code has it). Task records are written only by [createTask]
    and by [completeTask] (called directly or by a scheduled completion),
    and only the record of the task they name: every other operation, and
    either of these on another task, leaves a record as it is. A [completed]
    task stays [completed] under every operation but a [createTask] that
    re-submits its identifier. *)
Theorem terminal_status_stable o tid t st :
  JsMap.get tid (tasks st) = Some t ->
  (written_task o st <> Some tid ->
   JsMap.get tid (tasks (step o st)) = Some t)
  /\ (DistributedTask.status t = completed ->
      is_createTask o = false ->
      exists t', JsMap.get tid (tasks (step o st)) = Some t'
                 /\ DistributedTask.status t' = completed).
Proof.
  intros Hget.
  assert (Hother : written_task o st <> Some tid ->
                   JsMap.get tid (tasks (step o st)) = Some t).
  { intros Hw. rewrite <- Hget. destruct o; simpl in *.
    - reflexivity.
    - now rewrite unregisterNode_tasks.
    - now rewrite heartbeat_tasks.
    - apply createTask_get_other. congruence.
    - apply completeTask_get_other. congruence.
    - now rewrite checkHeartbeat_tasks.
    - unfold fireInterval. destruct (find _ _) as [[h0 id0]|]; [|reflexivity].
      now rewrite checkHeartbeat_tasks.
    - unfold fireCompletion.
      destruct (nth_error (timeouts st) i) as [[tid' nid]|]; [|reflexivity].
      simpl in Hw. rewrite completeTask_get_other by congruence. reflexivity. }
  split; [exact Hother|].
  intros Hst Hct.
  destruct (option_map (String.eqb tid) (written_task o st)) as [[|]|] eqn:W.
  - (* the operation names this task: it is a completion *)
    destruct o; simpl in *; try discriminate.
    + destruct (String.eqb tid taskId) eqn:E; [|discriminate].
      apply String.eqb_eq in E; subst taskId.
      now apply completeTask_keeps_completed with (t := t).
    + unfold fireCompletion.
      destruct (nth_error (timeouts st) i) as [[tid' nid]|]; [|discriminate].
      simpl in W. destruct (String.eqb tid tid') eqn:E; [|discriminate].
      apply String.eqb_eq in E; subst tid'.
      now apply completeTask_keeps_completed with (t := t).
  - exists t. split; [|exact Hst]. apply Hother.
    destruct (written_task o st); [|discriminate].
    simpl in W. intros Heq. inversion Heq; subst.
    rewrite String.eqb_refl in W. discriminate.
  - exists t. split; [|exact Hst]. apply Hother.
    destruct (written_task o st); discriminate.
Qed.

(** [t2] failed in [st_t2_failed]; a heartbeat leaves it failed. After its
    node completes it, it stays completed under a second completion. *)
Lemma terminal_status_stable_witness :
  JsMap.get "t2" (tasks (step (Heartbeat 7 "n1") st_t2_failed))
    = Some (DistributedTask.with_status failed t2)
  /\ exists t',
      JsMap.get "t1"
        (tasks (step (CompleteTask 9 "t1" "n1")
                     (completeTask 8 "t1" "n1" st_n1_busy))) = Some t'
      /\ DistributedTask.status t' = completed.
Proof.
  split.
  - apply (terminal_status_stable (Heartbeat 7 "n1") "t2"
             (DistributedTask.with_status failed t2) st_t2_failed).
    + reflexivity.
    + discriminate.
  - apply (terminal_status_stable (CompleteTask 9 "t1" "n1") "t1"
             (DistributedTask.with_completedAt (Some 8%Z)
                (DistributedTask.with_status completed t1))
             (completeTask 8 "t1" "n1" st_n1_busy)).
    + reflexivity.
    + reflexivity.
    + reflexivity.
Defined.

(** C3 (as stated) fails: [t2] is [failed] for want of a capable node, and
    [completeTask] on it with the registered node [n1] makes it
    [completed]. *)
Lemma failed_task_becomes_completed :
  option_map DistributedTask.status (JsMap.get "t2" (tasks st_t2_failed))
    = Some failed
  /\ option_map DistributedTask.status
       (JsMap.get "t2"
          (tasks (step (CompleteTask 5 "t2" "n1") st_t2_failed)))
     = Some completed.
Proof. split; reflexivity. Qed.

(** ** Capability matching and assignment *)

Lemma hasCapabilities_spec task node :
  hasCapabilities task node = true
  <-> exists target,
      In target (DistributedTask.targetNodes task)
      /\ (JsString.is_substring (nodeId node) target
          \/ JsString.is_substring (orgId node) target).
Proof.
  unfold hasCapabilities. rewrite existsb_exists.
  split; intros [target [Hin H]]; exists target; (split; [exact Hin|]).
  - apply orb_true_iff in H.
    now rewrite <- !JsString.includes_spec.
  - apply orb_true_iff. now rewrite !JsString.includes_spec.
Qed.

Lemma findCapableNodes_In ns task k node :
  In (k, node) (findCapableNodes ns task)
  <-> In (k, node) ns
      /\ status node = online
      /\ hasCapabilities task node = true.
Proof.
  induction ns as [|[k0 n0] r IH]; simpl; [tauto|].
  destruct (NodeStatus_eqb (status n0) online) eqn:Es; simpl.
  - apply NodeStatus_eqb_eq in Es.
    destruct (hasCapabilities task n0) eqn:Ec; simpl; rewrite IH.
    + split.
      * intros [Heq|H]; [inversion Heq; subst; tauto | tauto].
      * tauto.
    + split; [tauto|].
      intros [[Heq|H] [H1 H2]]; [inversion Heq; subst; congruence | tauto].
  - rewrite IH. split; [tauto|].
    intros [[Heq|H] [H1 H2]]; [|tauto].
    inversion Heq; subst. rewrite H1 in Es. discriminate.
Qed.

(** C4. The capable set is exactly the set of registered nodes that are
    [online] and whose [nodeId] or [orgId] occurs as a substring of some
    target of the task; no [busy] or [offline] node is in it. *)
Theorem findCapableNodes_spec ns task k node :
  (In (k, node) (findCapableNodes ns task)
   <-> In (k, node) ns
       /\ status node = online
       /\ exists target,
           In target (DistributedTask.targetNodes task)
           /\ (JsString.is_substring (nodeId node) target
               \/ JsString.is_substring (orgId node) target))
  /\ (In (k, node) (findCapableNodes ns task) ->
      status node <> busy /\ status node <> offline).
Proof.
  split.
  - rewrite findCapableNodes_In, hasCapabilities_spec. reflexivity.
  - intros H. apply findCapableNodes_In in H. destruct H as [_ [H _]].
    rewrite H. split; discriminate.
Qed.

Lemma findCapableNodes_online ns task e :
  In e (findCapableNodes ns task) -> status (snd e) = online.
Proof.
  destruct e as [k node]. intros H.
  now apply findCapableNodes_In in H.
Qed.

Lemma findCapableNodes_keys_incl ns task k :
  In k (map fst (findCapableNodes ns task)) -> In k (JsMap.keys ns).
Proof.
  induction ns as [|[k0 n0] r IH]; simpl; [tauto|].
  destruct (negb _); [tauto|].
  destruct (hasCapabilities task n0); simpl; tauto.
Qed.

Lemma findCapableNodes_NoDup ns task :
  NoDup (JsMap.keys ns) -> NoDup (map fst (findCapableNodes ns task)).
Proof.
  induction ns as [|[k0 n0] r IH]; simpl; [constructor|].
  intros H. inversion H as [|? ? Hnot Hnd]; subst.
  destruct (negb _); [now apply IH|].
  destruct (hasCapabilities task n0); simpl; [|now apply IH].
  constructor; [|now apply IH].
  intros Hin. apply Hnot. now apply findCapableNodes_keys_incl in Hin.
Qed.

Lemma set_set {V : Type} k (v1 v2 : V) m :
  JsMap.set k v2 (JsMap.set k v1 m) = JsMap.set k v2 m.
Proof.
  induction m as [|[k0 v0] r IH]; simpl.
  - now rewrite String.eqb_refl.
  - destruct (String.eqb k k0) eqn:E; simpl; rewrite E; [reflexivity|].
    now rewrite IH.
Qed.

Lemma count_values_set {V : Type} (p : V -> bool) k v m :
  length (filter p (JsMap.values (JsMap.set k v m)))
  + match JsMap.get k m with
    | Some v0 => if p v0 then 1 else 0
    | None => 0
    end
  = length (filter p (JsMap.values m)) + (if p v then 1 else 0).
Proof.
  induction m as [|[k0 v0] r IH]; simpl.
  - destruct (p v); simpl; lia.
  - destruct (String.eqb k k0) eqn:E; simpl.
    + destruct (p v), (p v0); simpl; lia.
    + unfold JsMap.values in *. simpl.
      destruct (JsMap.get k r); destruct (p v0); simpl; lia.
Qed.

(** Whether the task map already holds a [failed] record under [tid]. *)
Definition already_failed (tid : string) (st : state) : bool :=
  match JsMap.get tid (tasks st) with
  | Some t0 => TaskStatus_eqb (DistributedTask.status t0) failed
  | None => false
  end.

(** C5 (as the code has it). When no node is capable, [createTask] (a total
    function: nothing is raised) records the task as [failed], emits
    [task:created] then [task:failed] with reason [no_capable_nodes], and
    leaves the node map as it was. The failed-task count of [getStats] is
    then one higher, unless the task map already held a [failed] record
    under the same [taskId]: that record is overwritten and the count stays
    the same. *)
Theorem createTask_no_capable_nodes task st :
  findCapableNodes (nodes st) task = [] ->
  JsMap.get (DistributedTask.taskId task) (tasks (createTask task st))
    = Some (DistributedTask.with_status failed task)
  /\ events (createTask task st)
     = events st
       ++ [task_created task;
           task_failed (DistributedTask.with_status failed task)
                       "no_capable_nodes"]
  /\ nodes (createTask task st) = nodes st
  /\ failedTasks (getStats (createTask task st))
     = if already_failed (DistributedTask.taskId task) st
       then failedTasks (getStats st)
       else S (failedTasks (getStats st)).
Proof.
  intros Hnone. unfold createTask. cbv zeta. simpl nodes. rewrite Hnone.
  simpl. repeat split.
  - apply JsMap.get_set_same.
  - now rewrite <- app_assoc.
  - unfold count_tasks, already_failed. simpl. rewrite set_set.
    pose proof (count_values_set
                  (fun k => TaskStatus_eqb (DistributedTask.status k) failed)
                  (DistributedTask.taskId task)
                  (DistributedTask.with_status failed task) (tasks st)) as H.
    simpl in H.
    destruct (JsMap.get (DistributedTask.taskId task) (tasks st)) as [t0|].
    + destruct (TaskStatus_eqb (DistributedTask.status t0) failed).
      * lia.
      * lia.
    + lia.
Qed.

(** [t2] submitted to the coordinator holding only [n1]. *)
Lemma createTask_no_capable_nodes_witness :
  JsMap.get "t2" (tasks (createTask t2 (registerNode n1 init)))
    = Some (DistributedTask.with_status failed t2)
  /\ events (createTask t2 (registerNode n1 init))
     = events (registerNode n1 init)
       ++ [task_created t2;
           task_failed (DistributedTask.with_status failed t2)
                       "no_capable_nodes"]
  /\ nodes (createTask t2 (registerNode n1 init)) = nodes (registerNode n1 init)
  /\ failedTasks (getStats (createTask t2 (registerNode n1 init))) = 1.
Proof.
  apply (createTask_no_capable_nodes t2 (registerNode n1 init)).
  reflexivity.
Defined.

(** C5 (as stated) fails: [t2], already [failed], is submitted again; its
    capable set is empty and the failed-task count stays 1. *)
Lemma resubmitted_failed_task_not_counted_twice :
  findCapableNodes (nodes st_t2_failed)
                   (DistributedTask.with_status failed t2) = []
  /\ failedTasks (getStats st_t2_failed) = 1
  /\ failedTasks
       (getStats (createTask (DistributedTask.with_status failed t2)
                             st_t2_failed)) = 1.
Proof. repeat split; reflexivity. Qed.

Definition is_online (e : string * BotNetNode.t) : bool :=
  NodeStatus_eqb (status (snd e)) online.

Lemma sort_insert_online x l :
  is_online x = true -> sort_insert selectNodes_cmp x l = x :: l.
Proof.
  intros Hx. destruct l as [|y r]; simpl; [reflexivity|].
  unfold selectNodes_cmp. unfold is_online in Hx. rewrite Hx. simpl.
  now destruct (NodeStatus_eqb (status (snd y)) online).
Qed.

Lemma sort_insert_not_online x on off :
  is_online x = false ->
  Forall (fun e => is_online e = true) on ->
  Forall (fun e => is_online e = false) off ->
  sort_insert selectNodes_cmp x (on ++ off) = on ++ x :: off.
Proof.
  intros Hx Hon Hoff. unfold is_online in Hx.
  induction Hon as [|y on Hy Hon IH]; simpl.
  - destruct Hoff as [|y off Hy Hoff]; simpl; [reflexivity|].
    unfold selectNodes_cmp. unfold is_online in Hy. now rewrite Hx, Hy.
  - unfold selectNodes_cmp at 1. unfold is_online in Hy. rewrite Hx, Hy.
    simpl. now rewrite IH.
Qed.

(** The comparator of [selectNodes] under a stable sort: the online entries
    first, then the others, each group in its original order. *)
Lemma js_sort_online_first l :
  js_sort selectNodes_cmp l
  = filter is_online l ++ filter (fun e => negb (is_online e)) l.
Proof.
  induction l as [|x l IH]; simpl; [reflexivity|].
  rewrite IH. destruct (is_online x) eqn:Hx; simpl.
  - now apply sort_insert_online.
  - apply sort_insert_not_online; [exact Hx| |]; apply Forall_forall;
      intros e He; apply filter_In in He; destruct He as [_ He];
      [exact He | now apply negb_true_iff].
Qed.

Lemma filter_all_true {A : Type} (p : A -> bool) l :
  (forall x, In x l -> p x = true) ->
  filter p l = l /\ filter (fun x => negb (p x)) l = [].
Proof.
  induction l as [|x l IH]; simpl; intros H; [now split|].
  rewrite (H x) by now left. simpl.
  destruct IH as [IH1 IH2]; [intros y Hy; apply H; now right|].
  now rewrite IH1, IH2.
Qed.

Lemma selectNodes_capable ns task :
  selectNodes (findCapableNodes ns task) task
  = firstn (length (DistributedTask.targetNodes task))
           (findCapableNodes ns task).
Proof.
  unfold selectNodes. cbv zeta. rewrite js_sort_online_first.
  destruct (filter_all_true is_online (findCapableNodes ns task)) as [H1 H2].
  - intros e He. unfold is_online.
    apply NodeStatus_eqb_eq. now apply findCapableNodes_online in He.
  - now rewrite H1, H2, app_nil_r.
Qed.

Lemma In_firstn {A : Type} n (l : list A) x : In x (firstn n l) -> In x l.
Proof.
  revert n; induction l as [|y l IH]; intros [|n]; simpl; try tauto.
  intros [H|H]; [now left | right; now apply IH with n].
Qed.

Lemma NoDup_firstn {A : Type} n (l : list A) : NoDup l -> NoDup (firstn n l).
Proof.
  intros H; revert n; induction H as [|y l Hnot Hnd IH]; intros [|n]; simpl;
    try constructor.
  - intros Hin. apply Hnot. now apply In_firstn with n.
  - apply IH.
Qed.

(** The node map after the assignments of [sel], entry by entry. *)
Definition mark_busy (sel : list (string * BotNetNode.t))
           (m : JsMap.t BotNetNode.t) : JsMap.t BotNetNode.t :=
  fold_left (fun m e => JsMap.set (fst e) (with_status busy (snd e)) m) sel m.

Lemma fold_assignTask_nodes task sel st :
  nodes (fold_left (fun st node => assignTask task node st) sel st)
  = mark_busy sel (nodes st).
Proof.
  revert st; induction sel as [|e sel IH]; intros st; simpl; [reflexivity|].
  now rewrite IH.
Qed.

Lemma fold_assignTask_events task sel st :
  events (fold_left (fun st node => assignTask task node st) sel st)
  = events st
    ++ map (fun e => task_assigned task (with_status busy (snd e))) sel.
Proof.
  revert st; induction sel as [|e sel IH]; intros st; simpl.
  - now rewrite app_nil_r.
  - rewrite IH. simpl. now rewrite <- app_assoc.
Qed.

Lemma mark_busy_get_other k sel m :
  ~ In k (map fst sel) -> JsMap.get k (mark_busy sel m) = JsMap.get k m.
Proof.
  revert m; induction sel as [|e sel IH]; intros m Hnot; simpl;
    [reflexivity|].
  simpl in Hnot. unfold mark_busy in IH. rewrite IH by tauto.
  apply JsMap.get_set_other. intros ->. tauto.
Qed.

Lemma mark_busy_get_selected k n sel m :
  NoDup (map fst sel) -> In (k, n) sel ->
  JsMap.get k (mark_busy sel m) = Some (with_status busy n).
Proof.
  revert m; induction sel as [|e sel IH]; intros m Hnd Hin; simpl;
    [contradiction|].
  simpl in Hnd. inversion Hnd as [|? ? Hnot Hnd']; subst.
  destruct Hin as [->|Hin].
  - simpl in *. fold (mark_busy sel (JsMap.set k (with_status busy n) m)).
    rewrite mark_busy_get_other by exact Hnot.
    apply JsMap.get_set_same.
  - now apply IH.
Qed.

Lemma mark_busy_keys sel m :
  (forall k, In k (map fst sel) -> In k (JsMap.keys m)) ->
  JsMap.keys (mark_busy sel m) = JsMap.keys m.
Proof.
  revert m; induction sel as [|e sel IH]; intros m Hin; simpl;
    [reflexivity|].
  assert (Hk : JsMap.keys (JsMap.set (fst e) (with_status busy (snd e)) m)
               = JsMap.keys m).
  { apply JsMap.keys_set_present. intros Hnone.
    apply JsMap.get_None_not_In in Hnone. apply Hnone, Hin. now left. }
  unfold mark_busy in IH. rewrite IH; [exact Hk|].
  intros k Hk'. rewrite Hk. apply Hin. now right.
Qed.

(** The nodes [createTask] selects for [task] in state [st]. *)
Definition selectedNodes (task : DistributedTask.t) (st : state)
  : list (string * BotNetNode.t) :=
  selectNodes (findCapableNodes (nodes st) task) task.

Lemma createTask_capable task st :
  findCapableNodes (nodes st) task <> [] ->
  createTask task st
  = fold_left (fun st node => assignTask task node st)
      (selectedNodes task st)
      (emit (task_created task)
         (set_tasks
            (JsMap.set (DistributedTask.taskId task) task (tasks st)) st)).
Proof.
  intros Hne. unfold createTask, selectedNodes. cbv zeta. simpl nodes.
  destruct (findCapableNodes (nodes st) task); [congruence | reflexivity].
Qed.

(** C6. With a non-empty capable set, [createTask] selects the first
    min(|capable set|, |targetNodes|) capable nodes in registry order (the
    sort puts online entries first and is stable, and every capable node is
    online); each selected node is set to [busy], every other node is left
    as it was, and after [task:created] one [task:assigned] is emitted per
    selected node, in order. *)
Theorem createTask_assigns_selected task st :
  findCapableNodes (nodes st) task <> [] ->
  NoDup (JsMap.keys (nodes st)) ->
  length (selectedNodes task st)
    = Nat.min (length (findCapableNodes (nodes st) task))
              (length (DistributedTask.targetNodes task))
  /\ selectedNodes task st
     = firstn (length (DistributedTask.targetNodes task))
              (findCapableNodes (nodes st) task)
  /\ (forall l,
         selectNodes l task
         = firstn (length (DistributedTask.targetNodes task))
                  (filter is_online l
                   ++ filter (fun e => negb (is_online e)) l))
  /\ NoDup (map fst (selectedNodes task st))
  /\ (forall k n,
         In (k, n) (selectedNodes task st) ->
         status n = online
         /\ JsMap.get k (nodes st) = Some n
         /\ JsMap.get k (nodes (createTask task st))
            = Some (with_status busy n))
  /\ (forall k,
         ~ In k (map fst (selectedNodes task st)) ->
         JsMap.get k (nodes (createTask task st)) = JsMap.get k (nodes st))
  /\ events (createTask task st)
     = events st
       ++ task_created task
          :: map (fun e => task_assigned task (with_status busy (snd e)))
                 (selectedNodes task st).
Proof.
  intros Hne Hnd.
  assert (Hsel : selectedNodes task st
                 = firstn (length (DistributedTask.targetNodes task))
                          (findCapableNodes (nodes st) task))
    by apply selectNodes_capable.
  assert (Hnd' : NoDup (map fst (selectedNodes task st))).
  { rewrite Hsel, <- firstn_map. apply NoDup_firstn.
    now apply findCapableNodes_NoDup. }
  rewrite (createTask_capable task st Hne).
  rewrite fold_assignTask_nodes, fold_assignTask_events. simpl nodes.
  simpl events.
  repeat split.
  - rewrite Hsel, length_firstn. apply Nat.min_comm.
  - exact Hsel.
  - intros l. unfold selectNodes. cbv zeta.
    now rewrite js_sort_online_first.
  - exact Hnd'.
  - rewrite Hsel in H. apply In_firstn in H.
    now apply findCapableNodes_In in H.
  - rewrite Hsel in H. apply In_firstn in H.
    apply findCapableNodes_In in H. apply JsMap.In_get; tauto.
  - now apply mark_busy_get_selected.
  - intros k Hk. now apply mark_busy_get_other.
  - now rewrite <- app_assoc.
Qed.

Definition n2 : BotNetNode.t := BotNetNode.mk "n2" "a2" "o1" [] online 0.
Definition n3 : BotNetNode.t := BotNetNode.mk "n3" "a3" "o1" [] offline 0.

(** Three nodes of organization [o1] ([n3] offline), and a task with a
    single target naming the organization: two nodes are capable, one is
    selected. *)
Definition st_three_nodes : state :=
  run [RegisterNode n1; RegisterNode n3; RegisterNode n2] init.

Definition t3 : DistributedTask.t :=
  DistributedTask.mk "t3" "compute" 1 "o1:n1" ["o1:any"] "" pending 0 None.

Lemma createTask_assigns_selected_witness :
  length (selectedNodes t3 st_three_nodes) = 1
  /\ selectedNodes t3 st_three_nodes = [("n1", n1)]
  /\ (forall l,
         selectNodes l t3
         = firstn 1 (filter is_online l
                     ++ filter (fun e => negb (is_online e)) l))
  /\ NoDup (map fst (selectedNodes t3 st_three_nodes))
  /\ (forall k n,
         In (k, n) (selectedNodes t3 st_three_nodes) ->
         status n = online
         /\ JsMap.get k (nodes st_three_nodes) = Some n
         /\ JsMap.get k (nodes (createTask t3 st_three_nodes))
            = Some (with_status busy n))
  /\ (forall k,
         ~ In k (map fst (selectedNodes t3 st_three_nodes)) ->
         JsMap.get k (nodes (createTask t3 st_three_nodes))
         = JsMap.get k (nodes st_three_nodes))
  /\ events (createTask t3 st_three_nodes)
     = events st_three_nodes
       ++ [task_created t3; task_assigned t3 (with_status busy n1)].
Proof.
  apply (createTask_assigns_selected t3 st_three_nodes).
  - discriminate.
  - repeat constructor; simpl; intuition discriminate.
Defined.

(** ** The registry invariant: the keys of the node map are distinct *)

Lemma keys_delete_incl {V : Type} k k' (m : JsMap.t V) :
  In k' (JsMap.keys (JsMap.delete k m)) -> In k' (JsMap.keys m).
Proof.
  induction m as [|[k0 v0] r IH]; simpl; [tauto|].
  destruct (String.eqb k k0); simpl; tauto.
Qed.

Lemma NoDup_keys_delete {V : Type} k (m : JsMap.t V) :
  NoDup (JsMap.keys m) -> NoDup (JsMap.keys (JsMap.delete k m)).
Proof.
  induction m as [|[k0 v0] r IH]; simpl; [constructor|].
  intros H. inversion H as [|? ? Hnot Hnd]; subst.
  destruct (String.eqb k k0); simpl; [exact Hnd|].
  constructor; [|now apply IH].
  intros Hin. apply Hnot. now apply keys_delete_incl in Hin.
Qed.

Lemma NoDup_keys_mark_busy sel m :
  NoDup (JsMap.keys m) -> NoDup (JsMap.keys (mark_busy sel m)).
Proof.
  revert m; induction sel as [|e sel IH]; intros m H; simpl; [exact H|].
  apply IH. now apply JsMap.NoDup_keys_set.
Qed.

Lemma NoDup_keys_checkHeartbeat now id st :
  NoDup (JsMap.keys (nodes st)) ->
  NoDup (JsMap.keys (nodes (checkHeartbeat now id st))).
Proof.
  intros H. unfold checkHeartbeat.
  destruct (JsMap.get id (nodes st)); [|exact H].
  destruct (_ >? _)%Z; [|exact H]. simpl. now apply JsMap.NoDup_keys_set.
Qed.

Lemma NoDup_keys_completeTask now tid nid st :
  NoDup (JsMap.keys (nodes st)) ->
  NoDup (JsMap.keys (nodes (completeTask now tid nid st))).
Proof.
  intros H. unfold completeTask.
  destruct (JsMap.get tid (tasks st)); [|exact H].
  destruct (JsMap.get nid (nodes st)); [|exact H].
  simpl. now apply JsMap.NoDup_keys_set.
Qed.

Lemma NoDup_keys_step o st :
  NoDup (JsMap.keys (nodes st)) -> NoDup (JsMap.keys (nodes (step o st))).
Proof.
  intros H. destruct o; simpl.
  - now apply JsMap.NoDup_keys_set.
  - unfold unregisterNode, clearHeartbeat.
    destruct (JsMap.get id (nodes st)); [|exact H].
    destruct (JsMap.get id (heartbeatTimers st)); simpl;
      now apply NoDup_keys_delete.
  - unfold heartbeat. destruct (JsMap.get id (nodes st)); [|exact H].
    destruct (NodeStatus_eqb _ _); simpl; now apply JsMap.NoDup_keys_set.
  - unfold createTask. cbv zeta. simpl nodes.
    destruct (findCapableNodes (nodes st) task); [exact H|].
    rewrite fold_assignTask_nodes. now apply NoDup_keys_mark_busy.
  - now apply NoDup_keys_completeTask.
  - now apply NoDup_keys_checkHeartbeat.
  - unfold fireInterval. destruct (find _ _) as [[h0 id0]|]; [|exact H].
    now apply NoDup_keys_checkHeartbeat.
  - unfold fireCompletion.
    destruct (nth_error (timeouts st) i) as [[tid nid]|]; [|exact H].
    now apply NoDup_keys_completeTask.
Qed.

(** Every state the coordinator reaches from [init] has distinct keys. *)
Lemma NoDup_keys_run ops : forall st,
  NoDup (JsMap.keys (nodes st)) -> NoDup (JsMap.keys (nodes (run ops st))).
Proof.
  induction ops as [|o ops IH]; intros st H; simpl; [exact H|].
  apply IH. now apply NoDup_keys_step.
Qed.

Lemma NoDup_keys_reachable ops :
  NoDup (JsMap.keys (nodes (run ops init))).
Proof. apply NoDup_keys_run. constructor. Qed.

End CoordinatorCorrect.

(** * Properties of the multiplex router *)

Module RouterCorrect.

Import MultiplexChannel MultiplexRouter.

(** ** Scenario data *)

Definition orgA : OrganizationContext.t :=
  OrganizationContext.mk "a" "A" "ta" [].

(** A task from organization [a] to a node of organization [b]. *)
Definition tq : DistributedTask.t :=
  DistributedTask.mk "q1" "message" 1 "a:n1" ["b:n2"] "" pending 0 None.

(** ** Channel creation *)

(** C9. [createChannel] returns the identifier derived from the triple,
    whatever the state, so two calls with one triple return the same
    identifier; the record stored under it is the fresh, [active] one. When
    the channel was paused in between, the second call keeps the map's keys
    (the record is overwritten, not added) and the status is [active]
    again. *)
Theorem createChannel_idempotent_on_identity s t ty st st' :
  fst (createChannel s t ty st) = channelId s t ty
  /\ fst (createChannel s t ty st) = fst (createChannel s t ty st')
  /\ getChannelStatus (channelId s t ty) (snd (createChannel s t ty st))
     = Some (MultiplexChannel.mk s t ty active)
  /\ getChannelStatus (channelId s t ty)
       (pauseChannel (channelId s t ty) (snd (createChannel s t ty st)))
     = Some (MultiplexChannel.mk s t ty paused)
  /\ fst (createChannel s t ty
            (pauseChannel (channelId s t ty) (snd (createChannel s t ty st))))
     = fst (createChannel s t ty st)
  /\ getChannelStatus (channelId s t ty)
       (snd (createChannel s t ty
               (pauseChannel (channelId s t ty)
                             (snd (createChannel s t ty st)))))
     = Some (MultiplexChannel.mk s t ty active)
  /\ JsMap.keys
       (channels
          (snd (createChannel s t ty
                  (pauseChannel (channelId s t ty)
                                (snd (createChannel s t ty st))))))
     = JsMap.keys (channels (snd (createChannel s t ty st))).
Proof.
  assert (Hget : forall st0,
             getChannelStatus (channelId s t ty)
                              (snd (createChannel s t ty st0))
             = Some (MultiplexChannel.mk s t ty active)).
  { intros st0. unfold getChannelStatus, createChannel. simpl.
    apply JsMap.get_set_same. }
  assert (Hpause :
            channels (pauseChannel (channelId s t ty)
                                   (snd (createChannel s t ty st)))
            = JsMap.set (channelId s t ty)
                (MultiplexChannel.mk s t ty paused)
                (channels (snd (createChannel s t ty st)))).
  { unfold pauseChannel. unfold getChannelStatus in Hget. rewrite Hget.
    reflexivity. }
  repeat split.
  - apply Hget.
  - unfold getChannelStatus. rewrite Hpause. apply JsMap.get_set_same.
  - apply Hget.
  - change (channels (snd (createChannel s t ty ?X)))
      with (JsMap.set (channelId s t ty) (MultiplexChannel.mk s t ty active)
                      (channels X)) at 1.
    rewrite Hpause.
    rewrite !JsMap.keys_set_present; [reflexivity| |].
    + unfold getChannelStatus in Hget. now rewrite Hget.
    + rewrite JsMap.get_set_same. discriminate.
Qed.

(** ** Routing *)

Lemma split_head_spec s :
  ~ JsString.is_substring ":" (JsString.split_head s)
  /\ (s = JsString.split_head s
      \/ exists rest, s = (JsString.split_head s ++ ":" ++ rest)%string).
Proof.
  induction s as [|c s [IHn IHs]]; simpl.
  - split; [|now left].
    intros [pre [post H]]. destruct pre; discriminate.
  - destruct (Ascii.eqb_spec c ":"%char) as [->|Hne].
    + split.
      * intros [pre [post H]]. destruct pre; discriminate.
      * right. now exists s.
    + split.
      * intros [pre [post H]]. destruct pre as [|d pre]; simpl in H.
        -- inversion H. congruence.
        -- inversion H. apply IHn. now exists pre, post.
      * destruct IHs as [IHs|[rest IHs]].
        -- left. f_equal. exact IHs.
        -- right. exists rest. simpl. f_equal. exact IHs.
Qed.

(** C7. [route] throws exactly when the organization named by the part of
    [sourceNode] before its first colon is not registered; a throw happens
    before any write, so the router state and the task are as they were.
    When the organization is registered and no active channel matches,
    [route] returns, with the task appended to the global queue and
    [task:queued] emitted. *)
Theorem route_throws_iff_unknown_source task st :
  ((exists msg, route task st = Throw msg)
   <-> JsMap.get (JsString.split_head (DistributedTask.sourceNode task))
                 (organizations st) = None)
  /\ (JsMap.get (JsString.split_head (DistributedTask.sourceNode task))
                (organizations st) <> None ->
      findChannels task st = [] ->
      route task st
      = Ok (emit (task_queued task)
                 (set_messageQueue (messageQueue st ++ [task]) st)))
  /\ ~ JsString.is_substring ":"
         (JsString.split_head (DistributedTask.sourceNode task))
  /\ (DistributedTask.sourceNode task
      = JsString.split_head (DistributedTask.sourceNode task)
      \/ exists rest,
          DistributedTask.sourceNode task
          = (JsString.split_head (DistributedTask.sourceNode task)
             ++ ":" ++ rest)%string).
Proof.
  unfold route.
  destruct (JsMap.get _ (organizations st)) as [org|] eqn:G.
  - split; [|split; [|apply split_head_spec]].
    + split; [|discriminate].
      intros [msg H]. destruct (findChannels task st); discriminate.
    + intros _ ->. reflexivity.
  - split; [|split; [|apply split_head_spec]].
    + split; [reflexivity|]. intros _. eexists. reflexivity.
    + congruence.
Qed.

(** [tq] routed with organization [a] registered and no channel at all. *)
Lemma route_throws_iff_unknown_source_witness :
  route tq (registerOrganization orgA init)
  = Ok (emit (task_queued tq)
             (set_messageQueue
                (messageQueue (registerOrganization orgA init) ++ [tq])
                (registerOrganization orgA init)))
  /\ exists msg, route tq init = Throw msg.
Proof.
  split.
  - apply (route_throws_iff_unknown_source tq (registerOrganization orgA init)).
    + discriminate.
    + reflexivity.
  - apply (route_throws_iff_unknown_source tq init). reflexivity.
Defined.

(** ** Channel lookup *)

Lemma list_ascii_of_string_app a b :
  list_ascii_of_string (a ++ b)%string
  = list_ascii_of_string a ++ list_ascii_of_string b.
Proof. induction a as [|c a IH]; simpl; [reflexivity | now rewrite IH]. Qed.

(** An identifier ends with the name of its channel type, so identifiers of
    different types differ. *)
Lemma channelId_type_inj s t ty s' t' :
  channelId s t ty = channelId s' t' agent2agent -> ty = agent2agent.
Proof.
  unfold channelId. intros H.
  apply (f_equal list_ascii_of_string) in H.
  rewrite !list_ascii_of_string_app in H.
  rewrite !app_assoc in H.
  apply (f_equal (@rev ascii)) in H.
  rewrite !rev_app_distr in H.
  destruct ty; [reflexivity| | |]; simpl in H; discriminate.
Qed.

Lemma findChannels_loop_In cs src tgts c :
  In c (findChannels_loop cs src tgts)
  <-> exists tgt,
      In tgt tgts
      /\ JsMap.get (channelId src tgt agent2agent) cs = Some c
      /\ status c = active.
Proof.
  induction tgts as [|tgt0 r IH]; cbn [findChannels_loop].
  - simpl. split; [tauto | intros [tgt [[] _]]].
  - change (src ++ "->" ++ tgt0 ++ ":agent2agent")%string
      with (channelId src tgt0 agent2agent).
    destruct (JsMap.get (channelId src tgt0 agent2agent) cs) as [c0|] eqn:G.
    + destruct (ChannelStatus_eqb (status c0) active) eqn:Es; simpl;
        rewrite IH.
      * apply ChannelStatus_eqb_eq in Es. split.
        -- intros [<-|[tgt [H1 H2]]].
           ++ exists tgt0. tauto.
           ++ exists tgt. tauto.
        -- intros [tgt [[<-|H1] [H2 H3]]].
           ++ left. congruence.
           ++ right. exists tgt. tauto.
      * split.
        -- intros [tgt [H1 H2]]. exists tgt. tauto.
        -- intros [tgt [[<-|H1] [H2 H3]]].
           ++ rewrite G in H2. inversion H2; subst.
              apply ChannelStatus_eqb_eq in H3. congruence.
           ++ exists tgt. tauto.
    + simpl. rewrite IH. split.
      * intros [tgt [H1 H2]]. exists tgt. tauto.
      * intros [tgt [[<-|H1] [H2 H3]]]; [congruence|].
        exists tgt. tauto.
Qed.

Lemma findChannels_loop_ext cs cs' src tgts :
  (forall tgt, JsMap.get (channelId src tgt agent2agent) cs'
               = JsMap.get (channelId src tgt agent2agent) cs) ->
  findChannels_loop cs' src tgts = findChannels_loop cs src tgts.
Proof.
  intros H. induction tgts as [|tgt0 r IH]; cbn [findChannels_loop];
    [reflexivity|].
  change (src ++ "->" ++ tgt0 ++ ":agent2agent")%string
    with (channelId src tgt0 agent2agent).
  now rewrite H, IH.
Qed.

Lemma createChannel_other_type_findChannels s t ty task st :
  ty <> agent2agent ->
  findChannels task (snd (createChannel s t ty st)) = findChannels task st.
Proof.
  intros Hty. unfold findChannels, createChannel. simpl.
  apply findChannels_loop_ext. intros tgt.
  apply JsMap.get_set_other. intros Heq. symmetry in Heq.
  now apply channelId_type_inj in Heq.
Qed.

(** C8. [route] matches exactly the [active] records stored under the
    identifier of (source organization, target organization, agent2agent),
    the target ranging over the parts of the task's targets before their
    first colon; in a registry written by [createChannel] every such record
    has type agent2agent. Creating a channel of another type changes
    neither the channels found nor, when none is found, that the task is
    queued. *)
Theorem findChannels_only_active_agent2agent task st :
  (forall c,
      In c (findChannels task st)
      <-> exists target,
          In target (DistributedTask.targetNodes task)
          /\ JsMap.get
               (channelId
                  (JsString.split_head (DistributedTask.sourceNode task))
                  (JsString.split_head target) agent2agent)
               (channels st) = Some c
          /\ status c = active)
  /\ (channels_wf (channels st) ->
      forall c, In c (findChannels task st) -> channelType c = agent2agent)
  /\ (forall s t ty,
         ty <> agent2agent ->
         findChannels task (snd (createChannel s t ty st))
         = findChannels task st)
  /\ (forall s t ty,
         ty <> agent2agent ->
         JsMap.get (JsString.split_head (DistributedTask.sourceNode task))
                   (organizations st) <> None ->
         findChannels task st = [] ->
         route task (snd (createChannel s t ty st))
         = Ok (emit (task_queued task)
                 (set_messageQueue
                    (messageQueue st ++ [task])
                    (snd (createChannel s t ty st))))).
Proof.
  assert (Hiff : forall c,
             In c (findChannels task st)
             <-> exists target,
                 In target (DistributedTask.targetNodes task)
                 /\ JsMap.get
                      (channelId
                         (JsString.split_head
                            (DistributedTask.sourceNode task))
                         (JsString.split_head target) agent2agent)
                      (channels st) = Some c
                 /\ status c = active).
  { intros c. unfold findChannels. cbv zeta. rewrite findChannels_loop_In.
    split.
    - intros [tgt [Hin H]]. apply in_map_iff in Hin.
      destruct Hin as [target [<- Hin]]. exists target. tauto.
    - intros [target [Hin H]]. exists (JsString.split_head target).
      split; [now apply in_map | exact H]. }
  split; [exact Hiff|]. split; [|split].
  - intros Hwf c Hc. apply Hiff in Hc.
    destruct Hc as [target [_ [Hget _]]].
    apply JsMap.get_In, Hwf in Hget. symmetry in Hget.
    now apply channelId_type_inj in Hget.
  - intros s t ty Hty. now apply createChannel_other_type_findChannels.
  - intros s t ty Hty Horg Hnone. unfold route.
    rewrite createChannel_other_type_findChannels by exact Hty.
    rewrite Hnone. simpl organizations.
    destruct (JsMap.get _ (organizations st)); [reflexivity | congruence].
Qed.

(** [a] is registered; with only an org2org channel from [a] to [b], the
    task [tq] is queued. *)
Lemma findChannels_only_active_agent2agent_witness :
  route tq
    (snd (createChannel "a" "b" org2org (registerOrganization orgA init)))
  = Ok (emit (task_queued tq)
          (set_messageQueue
             (messageQueue (registerOrganization orgA init) ++ [tq])
             (snd (createChannel "a" "b" org2org
                     (registerOrganization orgA init)))))
  /\ forall c,
      In c (findChannels tq
              (snd (createChannel "a" "b" agent2agent
                      (registerOrganization orgA init)))) ->
      channelType c = agent2agent.
Proof.
  split.
  - apply (findChannels_only_active_agent2agent tq
             (registerOrganization orgA init)).
    + discriminate.
    + discriminate.
    + reflexivity.
  - apply (findChannels_only_active_agent2agent tq
             (snd (createChannel "a" "b" agent2agent
                     (registerOrganization orgA init)))).
    intros k c [H|[]]. inversion H. reflexivity.
Defined.

(** ** The registry invariant *)

Lemma In_set_inv {V : Type} k (x : V) k0 v m :
  In (k, x) (JsMap.set k0 v m) -> (k = k0 /\ x = v) \/ In (k, x) m.
Proof.
  induction m as [|[k1 v1] r IH]; simpl.
  - intros [H|[]]. inversion H. now left.
  - destruct (String.eqb k0 k1) eqn:E; simpl.
    + apply String.eqb_eq in E. subst k1.
      intros [H|H]; [inversion H; now left | tauto].
    + intros [H|H]; [tauto | apply IH in H; tauto].
Qed.

Lemma channels_wf_createChannel s t ty st :
  channels_wf (channels st) ->
  channels_wf (channels (snd (createChannel s t ty st))).
Proof.
  intros Hwf k c Hin. simpl in Hin. apply In_set_inv in Hin.
  destruct Hin as [[-> ->]|Hin]; [reflexivity | now apply Hwf].
Qed.

Lemma channels_wf_pauseChannel id st :
  channels_wf (channels st) -> channels_wf (channels (pauseChannel id st)).
Proof.
  intros Hwf. unfold pauseChannel.
  destruct (JsMap.get id (channels st)) as [ch|] eqn:G; [|exact Hwf].
  intros k c Hin. simpl in Hin. apply In_set_inv in Hin.
  destruct Hin as [[-> ->]|Hin]; [|now apply Hwf].
  apply JsMap.get_In in G. now apply Hwf in G.
Qed.

(** ** Draining the queue *)

Lemma route_Ok_inv task st st1 :
  route task st = Ok st1 ->
  channels st1 = channels st
  /\ organizations st1 = organizations st
  /\ ((findChannels task st = []
       /\ messageQueue st1 = messageQueue st ++ [task])
      \/ (findChannels task st <> []
          /\ messageQueue st1 = messageQueue st)).
Proof.
  unfold route.
  destruct (JsMap.get _ (organizations st)); [|discriminate].
  destruct (findChannels task st) eqn:F; intros H; inversion H; subst;
    simpl; repeat split; [left | right]; split; congruence.
Qed.

Lemma findChannels_channels task st st' :
  channels st' = channels st -> findChannels task st' = findChannels task st.
Proof. unfold findChannels. now intros ->. Qed.

(** A queued task that [route] would queue again. *)
Definition unroutable (task : DistributedTask.t) (st : state) : Prop :=
  JsMap.get (JsString.split_head (DistributedTask.sourceNode task))
            (organizations st) <> None
  /\ findChannels task st = [].

(** X19. While the queue holds an unroutable task, the loop of
    [processQueue] does not exit, whatever the number of iterations. *)
Lemma processQueue_never_finishes fuel : forall st task,
  In task (messageQueue st) -> unroutable task st ->
  forall st', processQueue fuel st <> Finished st'.
Proof.
  induction fuel as [|fuel IH]; intros st task Hin Hun st'; simpl;
    destruct (messageQueue st) as [|hd rest] eqn:Q; try contradiction;
    try discriminate.
  destruct (route hd (set_messageQueue rest st)) as [st1|msg] eqn:R;
    [|discriminate].
  apply route_Ok_inv in R. simpl in R. destruct R as [Hc [Ho Hq]].
  apply IH with (task := task).
  - destruct Hin as [->|Hin].
    + destruct Hq as [[_ ->]|[Hne _]].
      * apply in_or_app. right. now left.
      * destruct Hun as [_ Hun]. exfalso. apply Hne.
        rewrite <- Hun. now apply findChannels_channels.
    + destruct Hq as [[_ ->]|[_ ->]]; [apply in_or_app; now left | exact Hin].
  - destruct Hun as [H1 H2]. split.
    + now rewrite Ho.
    + now rewrite (findChannels_channels task st st1 Hc).
Qed.

(** When every queued task has a registered source and an active channel,
    the loop exits after one iteration per task, with the queue empty. *)
Lemma processQueue_drains_routable : forall q st,
  messageQueue st = q ->
  (forall task, In task q ->
     JsMap.get (JsString.split_head (DistributedTask.sourceNode task))
               (organizations st) <> None
     /\ findChannels task st <> []) ->
  exists st', processQueue (length q) st = Finished st'
              /\ messageQueue st' = []
              /\ channels st' = channels st.
Proof.
  induction q as [|hd rest IH]; intros st Q Hall; simpl; rewrite Q.
  - exists st. now repeat split.
  - destruct (Hall hd (or_introl eq_refl)) as [Horg Hch].
    unfold route. simpl organizations.
    destruct (JsMap.get _ (organizations st)) eqn:G; [|congruence].
    rewrite (findChannels_channels hd st (set_messageQueue rest st) eq_refl).
    destruct (findChannels hd st) as [|ch chs] eqn:F; [congruence|].
    match goal with |- context [processQueue _ ?s] => set (st1 := s) end.
    destruct (IH st1) as [st' [H1 [H2 H3]]]; [reflexivity | |].
    + intros task Hin. destruct (Hall task (or_intror Hin)) as [Ho Hc].
      split; [exact Ho|].
      now rewrite (findChannels_channels task st st1 eq_refl).
    + exists st'. now repeat split.
Qed.

Definition orgC : OrganizationContext.t :=
  OrganizationContext.mk "c" "C" "tc" [].

(** Organizations [a] and [c] are registered, with an org2org channel from
    [a] to [c]; [tq], for organization [b], is routed and queued; the
    channel is paused. *)
Definition st_backlog : state :=
  let st := registerOrganization orgC (registerOrganization orgA init) in
  let st := snd (createChannel "a" "c" org2org st) in
  match route tq st with
  | Ok st => pauseChannel "a->c:org2org" st
  | Throw _ => st
  end.

Lemma route_tq_requeues st :
  organizations st = organizations st_backlog ->
  channels st = JsMap.set "a->c:org2org"
                  (MultiplexChannel.mk "a" "c" org2org active)
                  (channels st_backlog) ->
  route tq st
  = Ok (emit (task_queued tq)
             (set_messageQueue (messageQueue st ++ [tq]) st)).
Proof.
  unfold route, findChannels. intros -> ->. reflexivity.
Qed.

Lemma processQueue_backlog_spins fuel : forall st,
  organizations st = organizations st_backlog ->
  channels st = JsMap.set "a->c:org2org"
                  (MultiplexChannel.mk "a" "c" org2org active)
                  (channels st_backlog) ->
  messageQueue st = [tq] ->
  exists st', processQueue fuel st = OutOfFuel st'
              /\ messageQueue st' = [tq].
Proof.
  induction fuel as [|fuel IH]; intros st Ho Hc Hq; simpl; rewrite Hq.
  - now exists st.
  - rewrite route_tq_requeues by assumption.
    apply IH; [exact Ho | exact Hc | reflexivity].
Qed.

(** C2 fails on the code: in [st_backlog] the queue holds [tq], which has
    no agent2agent channel. Resuming the channel from [a] to [c] starts the
    loop of [processQueue], which shifts [tq], routes it, and finds it at
    the tail of the queue again: for every number of iterations the loop is
    still running, with [tq] queued. *)
Theorem resumeChannel_backlog_never_drains :
  messageQueue st_backlog = [tq]
  /\ forall fuel,
      exists st', resumeChannel fuel "a->c:org2org" st_backlog = OutOfFuel st'
                  /\ messageQueue st' = [tq].
Proof.
  split; [reflexivity|].
  intros fuel. unfold resumeChannel.
  change (JsMap.get "a->c:org2org" (channels st_backlog))
    with (Some (MultiplexChannel.mk "a" "c" org2org paused)).
  cbv zeta. apply processQueue_backlog_spins; reflexivity.
Qed.

End RouterCorrect.

(** * Further properties of the node coordinator *)

Module CoordinatorExtras.

Import BotNetNode BotNetCoordinator CoordinatorCorrect.

(** ** Heartbeats *)

(** X1. [heartbeat] on a registered node records [now] as its last
    heartbeat; an [offline] node becomes [online] with exactly one
    [node:online] event, a node in any other status keeps it and nothing is
    emitted. No other node is touched, and an unknown id changes nothing. *)
Theorem heartbeat_revives_offline now id st :
  (forall node,
      JsMap.get id (nodes st) = Some node ->
      (status node = offline ->
       JsMap.get id (nodes (heartbeat now id st))
         = Some (with_status online (with_lastHeartbeat now node))
       /\ events (heartbeat now id st)
          = events st
            ++ [node_online
                  (with_status online (with_lastHeartbeat now node))])
      /\ (status node <> offline ->
          JsMap.get id (nodes (heartbeat now id st))
            = Some (with_lastHeartbeat now node)
          /\ events (heartbeat now id st) = events st))
  /\ (forall k, k <> id ->
         JsMap.get k (nodes (heartbeat now id st)) = JsMap.get k (nodes st))
  /\ (JsMap.get id (nodes st) = None -> heartbeat now id st = st).
Proof.
  unfold heartbeat. split; [|split].
  - intros node ->. simpl. split; intros Hs.
    + rewrite Hs. simpl. split; [apply JsMap.get_set_same | reflexivity].
    + destruct (NodeStatus_eqb (status node) offline) eqn:E.
      * apply NodeStatus_eqb_eq in E. contradiction.
      * simpl. split; [apply JsMap.get_set_same | reflexivity].
  - intros k Hk. destruct (JsMap.get id (nodes st)); [|reflexivity].
    destruct (NodeStatus_eqb _ _); simpl; now apply JsMap.get_set_other.
  - now intros ->.
Qed.

Definition n_off : BotNetNode.t := BotNetNode.mk "n9" "a9" "o1" [] offline 5.

Lemma heartbeat_revives_offline_witness :
  JsMap.get "n9" (nodes (heartbeat 70 "n9" (registerNode n_off init)))
    = Some (with_status online (with_lastHeartbeat 70 n_off))
  /\ events (heartbeat 70 "n9" (registerNode n_off init))
     = events (registerNode n_off init)
       ++ [node_online (with_status online (with_lastHeartbeat 70 n_off))].
Proof.
  apply (heartbeat_revives_offline 70 "n9" (registerNode n_off init)).
  - reflexivity.
  - reflexivity.
Defined.

(** X2. A liveness check within twice the heartbeat interval of a heartbeat
    changes nothing; a check later than that marks the node offline, if it
    is registered. *)
Theorem heartbeat_defers_offline now1 now2 id st :
  ((now2 - now1 <= 2 * heartbeatInterval)%Z ->
   checkHeartbeat now2 id (heartbeat now1 id st) = heartbeat now1 id st)
  /\ ((now2 - now1 > 2 * heartbeatInterval)%Z ->
      JsMap.get id (nodes st) <> None ->
      option_map status
        (JsMap.get id (nodes (checkHeartbeat now2 id (heartbeat now1 id st))))
      = Some offline).
Proof.
  assert (Hhb : forall node,
             JsMap.get id (nodes st) = Some node ->
             exists node',
               JsMap.get id (nodes (heartbeat now1 id st)) = Some node'
               /\ lastHeartbeat node' = now1).
  { intros node Hg. unfold heartbeat. rewrite Hg.
    destruct (NodeStatus_eqb _ _); simpl; rewrite JsMap.get_set_same;
      eexists; split; reflexivity. }
  split.
  - intros Hle. destruct (JsMap.get id (nodes st)) as [node|] eqn:G.
    + destruct (Hhb node eq_refl) as [node' [Hg' Hl]].
      unfold checkHeartbeat at 1. rewrite Hg', Hl.
      destruct (Z.gtb_spec (now2 - now1) (heartbeatInterval * 2));
        [lia | reflexivity].
    + unfold heartbeat. rewrite G. unfold checkHeartbeat. now rewrite G.
  - intros Hgt Hreg. destruct (JsMap.get id (nodes st)) as [node|] eqn:G;
      [|congruence].
    destruct (Hhb node eq_refl) as [node' [Hg' Hl]].
    unfold checkHeartbeat at 1. rewrite Hg', Hl.
    destruct (Z.gtb_spec (now2 - now1) (heartbeatInterval * 2)); [|lia].
    simpl. now rewrite JsMap.get_set_same.
Qed.

Lemma heartbeat_defers_offline_witness :
  checkHeartbeat 60070 "n9" (heartbeat 70 "n9" (registerNode n_off init))
    = heartbeat 70 "n9" (registerNode n_off init)
  /\ option_map status
       (JsMap.get "n9"
          (nodes (checkHeartbeat 60071 "n9"
                    (heartbeat 70 "n9" (registerNode n_off init)))))
     = Some offline.
Proof.
  split.
  - apply (heartbeat_defers_offline 70 60070 "n9" (registerNode n_off init)).
    discriminate.
  - apply (heartbeat_defers_offline 70 60071 "n9" (registerNode n_off init)).
    + reflexivity.
    + discriminate.
Defined.

(** ** Registration *)

Lemma length_set {V : Type} k (v : V) m :
  length (JsMap.set k v m)
  = match JsMap.get k m with
    | Some _ => length m
    | None => S (length m)
    end.
Proof.
  induction m as [|[k0 v0] r IH]; simpl; [reflexivity|].
  destruct (String.eqb k k0); simpl; [reflexivity|].
  rewrite IH. now destruct (JsMap.get k r).
Qed.

Lemma length_delete {V : Type} k (m : JsMap.t V) :
  length (JsMap.delete k m)
  = match JsMap.get k m with
    | Some _ => pred (length m)
    | None => length m
    end.
Proof.
  induction m as [|[k0 v0] r IH]; simpl; [reflexivity|].
  destruct (String.eqb k k0); simpl; [reflexivity|].
  rewrite IH. destruct (JsMap.get k r) eqn:G; [|reflexivity].
  destruct r; [discriminate | reflexivity].
Qed.

Lemma delete_set_fresh {V : Type} k (v : V) m :
  JsMap.get k m = None -> JsMap.delete k (JsMap.set k v m) = m.
Proof.
  induction m as [|[k0 v0] r IH]; simpl.
  - now rewrite String.eqb_refl.
  - destruct (String.eqb k k0) eqn:E; [discriminate|].
    intros H. simpl. rewrite E. now rewrite IH.
Qed.

(** X3. [totalNodes] counts registrations minus unregistrations:
    registering an unknown id adds one node, registering a known id
    replaces its record and adds none, unregistering a known id removes
    one, and unregistering an unknown id changes nothing at all.
    Registering an unknown id and unregistering it gives back the node
    map. *)
Theorem totalNodes_register_unregister node id st :
  totalNodes (getStats (registerNode node st))
    = (match JsMap.get (nodeId node) (nodes st) with
       | Some _ => totalNodes (getStats st)
       | None => S (totalNodes (getStats st))
       end)
  /\ JsMap.get (nodeId node) (nodes (registerNode node st)) = Some node
  /\ totalNodes (getStats (unregisterNode id st))
     = (match JsMap.get id (nodes st) with
        | Some _ => pred (totalNodes (getStats st))
        | None => totalNodes (getStats st)
        end)
  /\ (JsMap.get id (nodes st) = None -> unregisterNode id st = st)
  /\ (JsMap.get (nodeId node) (nodes st) = None ->
      nodes (unregisterNode (nodeId node) (registerNode node st)) = nodes st).
Proof.
  repeat split.
  - simpl. unfold JsMap.values. rewrite !length_map. apply length_set.
  - simpl. apply JsMap.get_set_same.
  - unfold unregisterNode, clearHeartbeat.
    destruct (JsMap.get id (nodes st)) eqn:G; [|reflexivity].
    assert (H : length (JsMap.values (JsMap.delete id (nodes st)))
                = pred (length (JsMap.values (nodes st)))).
    { unfold JsMap.values. rewrite !length_map, length_delete. now rewrite G. }
    destruct (JsMap.get id (heartbeatTimers st)); exact H.
  - unfold unregisterNode. now intros ->.
  - intros Hfresh. unfold unregisterNode. simpl nodes.
    rewrite JsMap.get_set_same. unfold clearHeartbeat. simpl.
    rewrite JsMap.get_set_same. simpl. now apply delete_set_fresh.
Qed.

Lemma totalNodes_register_unregister_witness :
  nodes (unregisterNode "n9" (registerNode n_off (registerNode n1 init)))
  = nodes (registerNode n1 init).
Proof.
  apply (totalNodes_register_unregister n_off "n9" (registerNode n1 init)).
  reflexivity.
Defined.

(** ** Liveness timers *)






(** ** Completion *)

(** X5. [completeTask] on a recorded task and a registered node marks the
    task [completed] at [now], puts the node [online] whatever its status
    was, and emits one [task:completed]; no other task and no other node
    changes. *)
Theorem completeTask_completes now tid nid task node st :
  JsMap.get tid (tasks st) = Some task ->
  JsMap.get nid (nodes st) = Some node ->
  JsMap.get tid (tasks (completeTask now tid nid st))
    = Some (DistributedTask.with_completedAt (Some now)
              (DistributedTask.with_status completed task))
  /\ JsMap.get nid (nodes (completeTask now tid nid st))
     = Some (with_status online node)
  /\ events (completeTask now tid nid st)
     = events st
       ++ [task_completed
             (DistributedTask.with_completedAt (Some now)
                (DistributedTask.with_status completed task))
             (with_status online node)]
  /\ (forall k, k <> tid ->
         JsMap.get k (tasks (completeTask now tid nid st))
         = JsMap.get k (tasks st))
  /\ (forall k, k <> nid ->
         JsMap.get k (nodes (completeTask now tid nid st))
         = JsMap.get k (nodes st)).
Proof.
  intros Ht Hn. unfold completeTask. rewrite Ht, Hn. simpl.
  repeat split.
  - apply JsMap.get_set_same.
  - apply JsMap.get_set_same.
  - intros k Hk. now apply JsMap.get_set_other.
  - intros k Hk. now apply JsMap.get_set_other.
Qed.

(** The offline node [n9] completes the failed task [t2]. *)
Lemma completeTask_completes_witness :
  JsMap.get "t2"
    (tasks (completeTask 9 "t2" "n9" (createTask t2 (registerNode n_off init))))
    = Some (DistributedTask.with_completedAt (Some 9%Z)
              (DistributedTask.with_status completed
                 (DistributedTask.with_status failed t2)))
  /\ JsMap.get "n9"
       (nodes (completeTask 9 "t2" "n9"
                 (createTask t2 (registerNode n_off init))))
     = Some (with_status online n_off).
Proof.
  pose proof (completeTask_completes 9 "t2" "n9"
                (DistributedTask.with_status failed t2) n_off
                (createTask t2 (registerNode n_off init))
                eq_refl eq_refl) as H.
  split; [exact (proj1 H) | exact (proj1 (proj2 H))].
Defined.

(** ** Assignment and the task lifecycle *)

Lemma fold_assignTask_timeouts task sel st :
  timeouts (fold_left (fun st node => assignTask task node st) sel st)
  = timeouts st
    ++ map (fun e => (DistributedTask.taskId task, nodeId (snd e))) sel.
Proof.
  revert st; induction sel as [|e sel IH]; intros st; simpl.
  - now rewrite app_nil_r.
  - rewrite IH. simpl. now rewrite <- app_assoc.
Qed.

(** X6. With a non-empty capable set, [createTask] stores the task as it
    was submitted (its status is not changed: it is never set to
    [processing]) and schedules one completion per selected node, in
    selection order, after those already pending. *)
Theorem createTask_schedules_completions task st :
  findCapableNodes (nodes st) task <> [] ->
  JsMap.get (DistributedTask.taskId task) (tasks (createTask task st))
    = Some task
  /\ timeouts (createTask task st)
     = timeouts st
       ++ map (fun e => (DistributedTask.taskId task, nodeId (snd e)))
              (selectedNodes task st).
Proof.
  intros Hne. rewrite (createTask_capable task st Hne).
  rewrite fold_assignTask_tasks, fold_assignTask_timeouts. simpl.
  split; [apply JsMap.get_set_same | reflexivity].
Qed.

Lemma createTask_schedules_completions_witness :
  JsMap.get "t3" (tasks (createTask t3 st_three_nodes)) = Some t3
  /\ timeouts (createTask t3 st_three_nodes) = [("t3", "n1")].
Proof.
  apply (createTask_schedules_completions t3 st_three_nodes). discriminate.
Defined.

(** Every node is stored under its own [nodeId]: what [registerNode], the
    only writer of keys, establishes. *)
Definition keys_are_ids (ns : JsMap.t BotNetNode.t) : Prop :=
  forall k n, In (k, n) ns -> k = nodeId n.

Lemma keys_are_ids_set k n ns :
  k = nodeId n -> keys_are_ids ns -> keys_are_ids (JsMap.set k n ns).
Proof.
  intros Hk Hids k' n' Hin. apply RouterCorrect.In_set_inv in Hin.
  destruct Hin as [[-> ->]|Hin]; [exact Hk | now apply Hids].
Qed.

Lemma In_delete {V : Type} k k' (v : V) m :
  In (k', v) (JsMap.delete k m) -> In (k', v) m.
Proof.
  induction m as [|[k0 v0] r IH]; simpl; [tauto|].
  destruct (String.eqb k k0); simpl; tauto.
Qed.

Lemma keys_are_ids_mark_busy sel ns :
  (forall e, In e sel -> fst e = nodeId (snd e)) ->
  keys_are_ids ns -> keys_are_ids (mark_busy sel ns).
Proof.
  revert ns; induction sel as [|e sel IH]; intros ns Hsel Hids; simpl;
    [exact Hids|].
  apply IH; [intros e' He'; apply Hsel; now right|].
  apply keys_are_ids_set; [|exact Hids]. simpl. apply Hsel. now left.
Qed.

Lemma keys_are_ids_checkHeartbeat now id st :
  keys_are_ids (nodes st) -> keys_are_ids (nodes (checkHeartbeat now id st)).
Proof.
  intros H. unfold checkHeartbeat.
  destruct (JsMap.get id (nodes st)) as [node|] eqn:G; [|exact H].
  destruct (_ >? _)%Z; [|exact H]. simpl.
  apply keys_are_ids_set; [|exact H]. simpl. now apply JsMap.get_In, H in G.
Qed.

Lemma keys_are_ids_completeTask now tid nid st :
  keys_are_ids (nodes st) ->
  keys_are_ids (nodes (completeTask now tid nid st)).
Proof.
  intros H. unfold completeTask.
  destruct (JsMap.get tid (tasks st)); [|exact H].
  destruct (JsMap.get nid (nodes st)) as [node|] eqn:G; [|exact H].
  simpl. apply keys_are_ids_set; [|exact H]. simpl.
  now apply JsMap.get_In, H in G.
Qed.

Lemma keys_are_ids_step o st :
  keys_are_ids (nodes st) -> keys_are_ids (nodes (step o st)).
Proof.
  intros H.
  destruct o as [node|id|now id|task|now tid nid|now id|now h0|now i]; simpl.
  - now apply keys_are_ids_set.
  - unfold unregisterNode, clearHeartbeat.
    destruct (JsMap.get id (nodes st)); [|exact H].
    destruct (JsMap.get id (heartbeatTimers st)) as [hh|]; simpl;
      intros k' n' Hin; apply In_delete in Hin; now apply H.
  - unfold heartbeat.
    destruct (JsMap.get id (nodes st)) as [node|] eqn:G; [|exact H].
    apply JsMap.get_In, H in G.
    destruct (NodeStatus_eqb _ _); simpl; now apply keys_are_ids_set.
  - unfold createTask. cbv zeta. simpl nodes.
    destruct (findCapableNodes (nodes st) task) as [|p l] eqn:E; [exact H|].
    rewrite fold_assignTask_nodes. apply keys_are_ids_mark_busy; [|exact H].
    intros [k n] He. unfold selectNodes in He. cbv zeta in He.
    apply In_firstn in He. rewrite js_sort_online_first in He.
    assert (Hin : In (k, n) (p :: l)).
    { apply in_app_or in He. destruct He as [He|He];
        apply filter_In in He; tauto. }
    rewrite <- E in Hin. apply findCapableNodes_In in Hin.
    simpl. apply H. tauto.
  - now apply keys_are_ids_completeTask.
  - now apply keys_are_ids_checkHeartbeat.
  - unfold fireInterval. destruct (find _ _) as [[h1 id1]|]; [|exact H].
    now apply keys_are_ids_checkHeartbeat.
  - unfold fireCompletion.
    destruct (nth_error (timeouts st) i) as [[tid nid]|]; [|exact H].
    now apply keys_are_ids_completeTask.
Qed.

Lemma keys_are_ids_reachable ops : keys_are_ids (nodes (run ops init)).
Proof.
  assert (H : forall st, keys_are_ids (nodes st) ->
                         keys_are_ids (nodes (run ops st))).
  { induction ops as [|o ops IH]; intros st Hk; simpl; [exact Hk|].
    apply IH. now apply keys_are_ids_step. }
  apply H. intros k n [].
Qed.

Lemma with_status_online_busy n :
  status n = online -> with_status online (with_status busy n) = n.
Proof. destruct n. simpl. now intros ->. Qed.

(** X7. The lifecycle of an assigned task: when the completion scheduled
    for a selected node fires after [createTask], the task is [completed]
    with [completedAt] the firing time, and the node, which [createTask]
    had set [busy], is [online] again with its record as before the
    assignment. *)
Theorem assigned_task_completes now task st k n :
  findCapableNodes (nodes st) task <> [] ->
  NoDup (JsMap.keys (nodes st)) ->
  keys_are_ids (nodes st) ->
  In (k, n) (selectedNodes task st) ->
  In (DistributedTask.taskId task, nodeId n) (timeouts (createTask task st))
  /\ JsMap.get k (nodes (createTask task st)) = Some (with_status busy n)
  /\ JsMap.get (DistributedTask.taskId task)
       (tasks (completeTask now (DistributedTask.taskId task) (nodeId n)
                 (createTask task st)))
     = Some (DistributedTask.with_completedAt (Some now)
               (DistributedTask.with_status completed task))
  /\ JsMap.get k
       (nodes (completeTask now (DistributedTask.taskId task) (nodeId n)
                 (createTask task st)))
     = Some n.
Proof.
  intros Hne Hnd Hids Hsel.
  assert (Hcap : In (k, n) (findCapableNodes (nodes st) task)).
  { unfold selectedNodes in Hsel. rewrite selectNodes_capable in Hsel.
    now apply In_firstn in Hsel. }
  apply findCapableNodes_In in Hcap. destruct Hcap as [Hin [Hon _]].
  assert (Hk : k = nodeId n) by now apply Hids.
  assert (Hndsel : NoDup (map fst (selectedNodes task st))).
  { unfold selectedNodes. rewrite selectNodes_capable, <- firstn_map.
    apply NoDup_firstn. now apply findCapableNodes_NoDup. }
  assert (Hbusy : JsMap.get k (nodes (createTask task st))
                  = Some (with_status busy n)).
  { rewrite (createTask_capable task st Hne), fold_assignTask_nodes.
    now apply mark_busy_get_selected. }
  assert (Htask : JsMap.get (DistributedTask.taskId task)
                            (tasks (createTask task st)) = Some task).
  { rewrite (createTask_capable task st Hne), fold_assignTask_tasks.
    simpl. apply JsMap.get_set_same. }
  split; [|split; [exact Hbusy|]].
  - rewrite (createTask_capable task st Hne), fold_assignTask_timeouts.
    apply in_or_app. right.
    change (DistributedTask.taskId task, nodeId n)
      with ((fun e : string * BotNetNode.t =>
               (DistributedTask.taskId task, nodeId (snd e))) (k, n)).
    now apply in_map.
  - subst k. unfold completeTask. rewrite Htask, Hbusy. simpl.
    rewrite !JsMap.get_set_same.
    now rewrite with_status_online_busy.
Qed.

Lemma assigned_task_completes_witness :
  In ("t3", "n1") (timeouts (createTask t3 st_three_nodes))
  /\ JsMap.get "n1" (nodes (createTask t3 st_three_nodes))
     = Some (with_status busy n1)
  /\ JsMap.get "t3"
       (tasks (completeTask 100 "t3" "n1" (createTask t3 st_three_nodes)))
     = Some (DistributedTask.with_completedAt (Some 100%Z)
               (DistributedTask.with_status completed t3))
  /\ JsMap.get "n1"
       (nodes (completeTask 100 "t3" "n1" (createTask t3 st_three_nodes)))
     = Some n1.
Proof.
  apply (assigned_task_completes 100 t3 st_three_nodes "n1" n1).
  - discriminate.
  - apply (NoDup_keys_reachable
             [RegisterNode n1; RegisterNode n3; RegisterNode n2]).
  - apply (keys_are_ids_reachable
             [RegisterNode n1; RegisterNode n3; RegisterNode n2]).
  - simpl. now left.
Defined.

(** ** Statistics *)

Lemma count_node_statuses (l : list BotNetNode.t) :
  length (filter (fun n => NodeStatus_eqb (status n) online) l)
  + length (filter (fun n => NodeStatus_eqb (status n) busy) l)
  + length (filter (fun n => NodeStatus_eqb (status n) offline) l)
  = length l.
Proof.
  induction l as [|n l IH]; simpl; [reflexivity|].
  destruct (status n); simpl; lia.
Qed.

Lemma count_task_statuses (l : list DistributedTask.t) :
  length (filter (fun k => TaskStatus_eqb (DistributedTask.status k) pending) l)
  + length (filter
              (fun k => TaskStatus_eqb (DistributedTask.status k) processing) l)
  + length (filter
              (fun k => TaskStatus_eqb (DistributedTask.status k) completed) l)
  + length (filter (fun k => TaskStatus_eqb (DistributedTask.status k) failed) l)
  = length l.
Proof.
  induction l as [|k l IH]; simpl; [reflexivity|].
  destruct (DistributedTask.status k); simpl; lia.
Qed.

(** X8. In every state the counts of [getStats] add up: the online, busy
    and offline nodes are all the nodes, the pending, processing, completed
    and failed tasks are all the tasks, and [getOnlineNodes] and
    [getPendingTasks] have as many elements as the counts say. *)
Theorem getStats_counts_add_up st :
  onlineNodes (getStats st) + busyNodes (getStats st)
  + offlineNodes (getStats st) = totalNodes (getStats st)
  /\ pendingTasks (getStats st) + processingTasks (getStats st)
     + completedTasks (getStats st) + failedTasks (getStats st)
     = totalTasks (getStats st)
  /\ length (getOnlineNodes st) = onlineNodes (getStats st)
  /\ length (getPendingTasks st) = pendingTasks (getStats st).
Proof.
  unfold getStats, count_nodes, count_tasks, getOnlineNodes, getPendingTasks.
  simpl. repeat split.
  - apply count_node_statuses.
  - apply count_task_statuses.
Qed.

(** ** Assignment exhausts the capable nodes *)

Lemma In_mark_busy_inv k n' sel m :
  In (k, n') (mark_busy sel m) ->
  (exists n, In (k, n) sel /\ n' = with_status busy n) \/ In (k, n') m.
Proof.
  revert m; induction sel as [|e sel IH]; intros m Hin; simpl in Hin;
    [now right|].
  apply IH in Hin. destruct Hin as [[n [H1 H2]]|Hin].
  - left. exists n. split; [now right | exact H2].
  - apply RouterCorrect.In_set_inv in Hin.
    destruct Hin as [[-> ->]|Hin]; [|now right].
    left. exists (snd e). split; [left; now destruct e | reflexivity].
Qed.

Lemma findCapableNodes_nil ns task :
  (forall k n, In (k, n) ns ->
               status n = online -> hasCapabilities task n = false) ->
  findCapableNodes ns task = [].
Proof.
  intros H. destruct (findCapableNodes ns task) as [|[k n] l] eqn:E;
    [reflexivity|].
  assert (Hin : In (k, n) (findCapableNodes ns task))
    by (rewrite E; now left).
  apply findCapableNodes_In in Hin. destruct Hin as [H1 [H2 H3]].
  rewrite (H k n H1 H2) in H3. discriminate.
Qed.

Lemma createTask_failed_record task st :
  findCapableNodes (nodes st) task = [] ->
  JsMap.get (DistributedTask.taskId task) (tasks (createTask task st))
  = Some (DistributedTask.with_status failed task).
Proof.
  intros Hnone. unfold createTask. cbv zeta. simpl nodes. rewrite Hnone.
  simpl. apply JsMap.get_set_same.
Qed.

(** X9. When a task has at least as many targets as capable nodes, all of
    them are assigned and set [busy], so no node is capable of that task
    any more: submitting it again before a completion fires records it as
    [failed]. *)
Theorem createTask_exhausts_capable_nodes task st :
  findCapableNodes (nodes st) task <> [] ->
  NoDup (JsMap.keys (nodes st)) ->
  length (findCapableNodes (nodes st) task)
  <= length (DistributedTask.targetNodes task) ->
  findCapableNodes (nodes (createTask task st)) task = []
  /\ JsMap.get (DistributedTask.taskId task)
       (tasks (createTask task (createTask task st)))
     = Some (DistributedTask.with_status failed task).
Proof.
  intros Hne Hnd Hlen.
  assert (Hsel : selectedNodes task st = findCapableNodes (nodes st) task).
  { unfold selectedNodes. rewrite selectNodes_capable.
    now apply firstn_all2. }
  assert (Hnodes : nodes (createTask task st)
                   = mark_busy (findCapableNodes (nodes st) task) (nodes st)).
  { rewrite (createTask_capable task st Hne), fold_assignTask_nodes.
    now rewrite Hsel. }
  assert (Hnone : findCapableNodes (nodes (createTask task st)) task = []).
  { apply findCapableNodes_nil. intros k n' Hin Hon.
    destruct (hasCapabilities task n') eqn:Hc; [exfalso | reflexivity].
    pose proof Hin as Hin'. rewrite Hnodes in Hin'.
    apply In_mark_busy_inv in Hin'.
    destruct Hin' as [[n [_ ->]]|Hold]; [discriminate|].
    assert (Hcap : In (k, n') (findCapableNodes (nodes st) task))
      by (apply findCapableNodes_In; tauto).
    assert (Hget : JsMap.get k (nodes (createTask task st))
                   = Some (with_status busy n')).
    { rewrite Hnodes. apply mark_busy_get_selected; [|exact Hcap].
      now apply findCapableNodes_NoDup. }
    assert (Hget' : JsMap.get k (nodes (createTask task st)) = Some n').
    { apply JsMap.In_get; [|exact Hin].
      rewrite Hnodes. now apply NoDup_keys_mark_busy. }
    rewrite Hget in Hget'. inversion Hget' as [Heq].
    rewrite <- Heq in Hon. discriminate. }
  split; [exact Hnone | now apply createTask_failed_record].
Qed.

Lemma createTask_exhausts_capable_nodes_witness :
  findCapableNodes (nodes (createTask t1 (registerNode n1 init))) t1 = []
  /\ JsMap.get "t1"
       (tasks (createTask t1 (createTask t1 (registerNode n1 init))))
     = Some (DistributedTask.with_status failed t1).
Proof.
  apply (createTask_exhausts_capable_nodes t1 (registerNode n1 init)).
  - discriminate.
  - apply (NoDup_keys_reachable [RegisterNode n1]).
  - simpl. lia.
Defined.

End CoordinatorExtras.

(** * Further properties of the multiplex router *)

Module RouterExtras.

Import MultiplexChannel MultiplexRouter RouterCorrect.

(** ** Routing through a channel *)

Lemma findChannels_loop_skip cs src pre tgts :
  (forall t c, In t pre ->
               JsMap.get (channelId src t agent2agent) cs = Some c ->
               status c <> active) ->
  findChannels_loop cs src (pre ++ tgts) = findChannels_loop cs src tgts.
Proof.
  intros H. induction pre as [|t0 pre IH]; [reflexivity|].
  cbn [app findChannels_loop].
  change (src ++ "->" ++ t0 ++ ":agent2agent")%string
    with (channelId src t0 agent2agent).
  assert (IH' : findChannels_loop cs src (pre ++ tgts)
                = findChannels_loop cs src tgts).
  { apply IH. intros t c Hin. apply H. now right. }
  destruct (JsMap.get (channelId src t0 agent2agent) cs) as [c|] eqn:G;
    [|exact IH'].
  destruct (ChannelStatus_eqb (status c) active) eqn:E; [|exact IH'].
  apply ChannelStatus_eqb_eq in E. exfalso.
  apply (H t0 c); [now left | exact G | exact E].
Qed.

(** X10. [route] uses the channel of the first target, in the order of
    [targetNodes], whose organization has an [active] agent2agent channel
    from the source organization: it emits [task:routing] with that
    channel and schedules one delivery, and leaves the queue as it was. *)
Theorem route_uses_first_active_channel task st pre target post c :
  JsMap.get (JsString.split_head (DistributedTask.sourceNode task))
            (organizations st) <> None ->
  DistributedTask.targetNodes task = pre ++ target :: post ->
  (forall t c',
      In t pre ->
      JsMap.get (channelId
                   (JsString.split_head (DistributedTask.sourceNode task))
                   (JsString.split_head t) agent2agent) (channels st)
      = Some c' ->
      status c' <> active) ->
  JsMap.get (channelId
               (JsString.split_head (DistributedTask.sourceNode task))
               (JsString.split_head target) agent2agent) (channels st)
  = Some c ->
  status c = active ->
  route task st
  = Ok (set_deliveries (deliveries st ++ [(task, c)])
                       (emit (task_routing task c) st)).
Proof.
  intros Horg Htg Hpre Hget Hact. unfold route.
  destruct (JsMap.get _ (organizations st)); [|congruence].
  unfold findChannels. cbv zeta. rewrite Htg, map_app.
  rewrite findChannels_loop_skip.
  - cbn [map findChannels_loop].
    change (?s ++ "->" ++ ?t ++ ":agent2agent")%string
      with (channelId s t agent2agent).
    rewrite Hget. apply ChannelStatus_eqb_eq in Hact. rewrite Hact.
    reflexivity.
  - intros t c' Hin. apply in_map_iff in Hin.
    destruct Hin as [tgt [<- Hin]]. now apply Hpre.
Qed.

(** A task for organizations [c] then [b], with a channel to [b] only. *)
Definition t_cb : DistributedTask.t :=
  DistributedTask.mk "r1" "message" 1 "a:n1" ["c:n3"; "b:n2"] "" pending 0
                     None.

Definition st_ab : state :=
  snd (createChannel "a" "b" agent2agent (registerOrganization orgA init)).

Lemma route_uses_first_active_channel_witness :
  route t_cb st_ab
  = Ok (set_deliveries
          (deliveries st_ab
           ++ [(t_cb, MultiplexChannel.mk "a" "b" agent2agent active)])
          (emit (task_routing t_cb
                   (MultiplexChannel.mk "a" "b" agent2agent active))
                st_ab)).
Proof.
  apply (route_uses_first_active_channel t_cb st_ab ["c:n3"] "b:n2" []).
  - discriminate.
  - reflexivity.
  - intros t c' [<-|[]]. discriminate.
  - reflexivity.
  - reflexivity.
Defined.

(** ** Pausing and resuming *)

Lemma set_same_get {V : Type} k (v : V) m :
  JsMap.get k m = Some v -> JsMap.set k v m = m.
Proof.
  induction m as [|[k0 v0] r IH]; simpl; [discriminate|].
  destruct (String.eqb k k0) eqn:E.
  - apply String.eqb_eq in E. subst. intros H. now inversion H.
  - intros H. now rewrite IH.
Qed.

(** X11. Pausing the agent2agent channel of a task's only target makes
    [route] queue the task, whether or not other channels exist. Pausing an
    active channel and resuming it while the queue is empty gives back the
    channel map, with one [channel:paused] and one [channel:resumed] event.
    Pausing or resuming an unknown identifier changes nothing. *)
Theorem pauseChannel_stops_routing task target id st :
  (DistributedTask.targetNodes task = [target] ->
   id = channelId (JsString.split_head (DistributedTask.sourceNode task))
                  (JsString.split_head target) agent2agent ->
   JsMap.get (JsString.split_head (DistributedTask.sourceNode task))
             (organizations st) <> None ->
   route task (pauseChannel id st)
   = Ok (emit (task_queued task)
           (set_messageQueue (messageQueue st ++ [task])
                             (pauseChannel id st))))
  /\ (forall c fuel,
         JsMap.get id (channels st) = Some c ->
         status c = active ->
         messageQueue st = [] ->
         exists st',
           resumeChannel fuel id (pauseChannel id st) = Finished st'
           /\ channels st' = channels st
           /\ events st'
              = events st
                ++ [channel_paused (with_status paused c);
                    channel_resumed c])
  /\ (JsMap.get id (channels st) = None ->
      pauseChannel id st = st
      /\ forall fuel, resumeChannel fuel id st = Finished st).
Proof.
  split; [|split].
  - intros Htg Hid Horg. unfold route.
    assert (Ho : organizations (pauseChannel id st) = organizations st).
    { unfold pauseChannel. now destruct (JsMap.get id (channels st)). }
    assert (Hq : messageQueue (pauseChannel id st) = messageQueue st).
    { unfold pauseChannel. now destruct (JsMap.get id (channels st)). }
    rewrite Ho, Hq.
    destruct (JsMap.get _ (organizations st)); [|congruence].
    assert (Hnone : findChannels task (pauseChannel id st) = []).
    { unfold findChannels. cbv zeta. rewrite Htg.
      cbn [map findChannels_loop].
      change (?s ++ "->" ++ ?t ++ ":agent2agent")%string
        with (channelId s t agent2agent).
      rewrite <- Hid. unfold pauseChannel.
      destruct (JsMap.get id (channels st)) as [c|] eqn:G.
      - simpl. now rewrite JsMap.get_set_same.
      - now rewrite G. }
    now rewrite Hnone.
  - intros c fuel Hget Hact Hq. unfold resumeChannel, pauseChannel.
    rewrite Hget. simpl. rewrite JsMap.get_set_same. simpl.
    destruct fuel; simpl; rewrite Hq; eexists; (split; [reflexivity|]);
      simpl; rewrite CoordinatorCorrect.set_set, <- app_assoc;
      (assert (Hc : with_status active (with_status paused c) = c)
         by (destruct c; simpl in *; now subst));
      rewrite Hc, (set_same_get id c (channels st) Hget); now split.
  - intros Hnone. unfold pauseChannel, resumeChannel. rewrite Hnone.
    now split.
Qed.

Lemma pauseChannel_stops_routing_witness :
  route tq (pauseChannel "a->b:agent2agent" st_ab)
  = Ok (emit (task_queued tq)
          (set_messageQueue (messageQueue st_ab ++ [tq])
                            (pauseChannel "a->b:agent2agent" st_ab)))
  /\ exists st',
      resumeChannel 3 "a->b:agent2agent"
                    (pauseChannel "a->b:agent2agent" st_ab) = Finished st'
      /\ channels st' = channels st_ab
      /\ events st'
         = events st_ab
           ++ [channel_paused (MultiplexChannel.mk "a" "b" agent2agent paused);
               channel_resumed (MultiplexChannel.mk "a" "b" agent2agent active)].
Proof.
  split.
  - apply (pauseChannel_stops_routing tq "b:n2" "a->b:agent2agent" st_ab).
    + reflexivity.
    + reflexivity.
    + discriminate.
  - apply (proj1 (proj2 (pauseChannel_stops_routing tq "b:n2"
                          "a->b:agent2agent" st_ab))
             (MultiplexChannel.mk "a" "b" agent2agent active) 3).
    + reflexivity.
    + reflexivity.
    + reflexivity.
Defined.

(** ** Broadcast *)

(** The event [route] emits for the copy of [task] made for [orgId]. *)
Definition broadcast_event (task : DistributedTask.t) (st : state)
           (orgId : string) : Event :=
  match findChannels (broadcastTask task orgId) st with
  | [] => task_queued (broadcastTask task orgId)
  | c :: _ => task_routing (broadcastTask task orgId) c
  end.

Definition other_orgs (task : DistributedTask.t) (st : state) : list string :=
  filter (fun orgId =>
            negb (String.eqb orgId
                    (JsString.split_head (DistributedTask.sourceNode task))))
         (JsMap.keys (organizations st)).

Lemma route_known_source task st :
  JsMap.get (JsString.split_head (DistributedTask.sourceNode task))
            (organizations st) <> None ->
  exists st',
    route task st = Ok st'
    /\ channels st' = channels st
    /\ organizations st' = organizations st
    /\ events st'
       = events st
         ++ [match findChannels task st with
             | [] => task_queued task
             | c :: _ => task_routing task c
             end]
    /\ length (messageQueue st') + length (deliveries st')
       = S (length (messageQueue st) + length (deliveries st)).
Proof.
  intros Horg. unfold route.
  destruct (JsMap.get _ (organizations st)); [|congruence].
  destruct (findChannels task st); eexists; (split; [reflexivity|]); simpl;
    rewrite length_app; simpl; repeat split; lia.
Qed.

Lemma broadcast_loop_known task orgs : forall st,
  JsMap.get (JsString.split_head (DistributedTask.sourceNode task))
            (organizations st) <> None ->
  exists st',
    broadcast_loop task
      (JsString.split_head (DistributedTask.sourceNode task)) orgs st
    = Ok st'
    /\ channels st' = channels st
    /\ organizations st' = organizations st
    /\ events st'
       = events st
         ++ map (broadcast_event task st)
              (filter (fun orgId =>
                         negb (String.eqb orgId
                                 (JsString.split_head
                                    (DistributedTask.sourceNode task))))
                      (JsMap.keys orgs))
    /\ length (messageQueue st') + length (deliveries st')
       = length (messageQueue st) + length (deliveries st)
         + length (filter (fun orgId =>
                             negb (String.eqb orgId
                                     (JsString.split_head
                                        (DistributedTask.sourceNode task))))
                          (JsMap.keys orgs)).
Proof.
  induction orgs as [|[orgId org] r IH]; intros st Horg; simpl.
  - exists st. rewrite app_nil_r. repeat split; lia.
  - destruct (String.eqb orgId _) eqn:E; simpl.
    + now apply IH.
    + destruct (route_known_source (broadcastTask task orgId) st Horg)
        as [st1 [R [Hc [Ho [He Hl]]]]].
      rewrite R. destruct (IH st1) as [st' [B [Hc' [Ho' [He' Hl']]]]];
        [now rewrite Ho|].
      exists st'. split; [exact B|]. split; [congruence|].
      split; [congruence|]. split.
      * rewrite He', He, <- app_assoc. simpl. f_equal. f_equal.
        apply map_ext. intros o. unfold broadcast_event, findChannels.
        now rewrite Hc.
      * lia.
Qed.

(** X12. [broadcast] from a registered source organization never throws.
    It routes one copy of the task per other registered organization, in
    registry order: each copy is either queued or scheduled for delivery,
    with one [task:queued] or [task:routing] event, according to the
    agent2agent channel from the source to that organization. Channels and
    organizations are unchanged. *)
Theorem broadcast_routes_one_copy_per_org task st :
  JsMap.get (JsString.split_head (DistributedTask.sourceNode task))
            (organizations st) <> None ->
  exists st',
    broadcast task st = Ok st'
    /\ channels st' = channels st
    /\ organizations st' = organizations st
    /\ events st'
       = events st ++ map (broadcast_event task st) (other_orgs task st)
    /\ length (messageQueue st') + length (deliveries st')
       = length (messageQueue st) + length (deliveries st)
         + length (other_orgs task st).
Proof.
  intros Horg. unfold broadcast, other_orgs.
  now apply broadcast_loop_known.
Qed.

Definition st_abc : state :=
  registerOrganization orgC
    (registerOrganization (OrganizationContext.mk "b" "B" "tb" []) st_ab).

Lemma broadcast_routes_one_copy_per_org_witness :
  exists st',
    broadcast tq st_abc = Ok st'
    /\ channels st' = channels st_abc
    /\ organizations st' = organizations st_abc
    /\ events st'
       = events st_abc
         ++ [task_routing (broadcastTask tq "b")
               (MultiplexChannel.mk "a" "b" agent2agent active);
             task_queued (broadcastTask tq "c")]
    /\ length (messageQueue st') + length (deliveries st') = 2.
Proof.
  apply (broadcast_routes_one_copy_per_org tq st_abc). discriminate.
Defined.

(** X13. [broadcast] from an unregistered source organization throws as
    soon as any organization is registered, before any write; on an empty
    registry it returns without doing anything. *)
Theorem broadcast_unknown_source task st :
  JsMap.get (JsString.split_head (DistributedTask.sourceNode task))
            (organizations st) = None ->
  (organizations st = [] -> broadcast task st = Ok st)
  /\ (organizations st <> [] -> exists msg, broadcast task st = Throw msg).
Proof.
  intros Hnone. unfold broadcast. split.
  - intros ->. reflexivity.
  - intros Hne. destruct (organizations st) as [|[orgId org] r] eqn:O;
      [congruence|].
    cbn [broadcast_loop].
    assert (E : String.eqb orgId
                  (JsString.split_head (DistributedTask.sourceNode task))
                = false).
    { simpl in Hnone. rewrite String.eqb_sym.
      now destruct (String.eqb _ orgId). }
    rewrite E. simpl negb. cbv iota. unfold route. simpl DistributedTask.sourceNode.
    rewrite O. rewrite Hnone. eexists. reflexivity.
Qed.

Lemma broadcast_unknown_source_witness :
  broadcast tq init = Ok init
  /\ exists msg,
      broadcast tq
        (registerOrganization (OrganizationContext.mk "b" "B" "tb" []) init)
      = Throw msg.
Proof.
  split.
  - apply (broadcast_unknown_source tq init); reflexivity.
  - apply (broadcast_unknown_source tq
             (registerOrganization (OrganizationContext.mk "b" "B" "tb" [])
                                   init)).
    + reflexivity.
    + discriminate.
Defined.

(** ** Organizations *)

(** X14. [registerOrganization] stores the organization under its [orgId],
    replacing a record with the same id and leaving the others; the
    organization count grows by one only for an unknown id. Once an
    organization is registered, [route] does not throw for a task whose
    source names it. *)
Theorem registerOrganization_enables_route org st :
  JsMap.get (OrganizationContext.orgId org)
            (organizations (registerOrganization org st)) = Some org
  /\ (forall k, k <> OrganizationContext.orgId org ->
         JsMap.get k (organizations (registerOrganization org st))
         = JsMap.get k (organizations st))
  /\ stat_organizations (getStats (registerOrganization org st))
     = (match JsMap.get (OrganizationContext.orgId org) (organizations st)
        with
        | Some _ => stat_organizations (getStats st)
        | None => S (stat_organizations (getStats st))
        end)
  /\ (forall task,
         JsString.split_head (DistributedTask.sourceNode task)
         = OrganizationContext.orgId org ->
         exists st', route task (registerOrganization org st) = Ok st').
Proof.
  repeat split.
  - simpl. apply JsMap.get_set_same.
  - intros k Hk. simpl. now apply JsMap.get_set_other.
  - simpl. unfold JsMap.size. apply CoordinatorExtras.length_set.
  - intros task Hsrc.
    destruct (route_known_source task (registerOrganization org st))
      as [st' [R _]].
    + rewrite Hsrc. simpl. rewrite JsMap.get_set_same. discriminate.
    + now exists st'.
Qed.

Lemma registerOrganization_enables_route_witness :
  exists st', route tq (registerOrganization orgA init) = Ok st'.
Proof.
  apply (registerOrganization_enables_route orgA init). reflexivity.
Defined.

(** ** Reachable router states *)

(** The operations a caller or a timer can perform on the router. A
    [route] or [broadcast] that throws leaves the state as it was; a resume
    is followed for [fuel] iterations of its loop. *)
Inductive op :=
| RegisterOrganization (org : OrganizationContext.t)
| CreateChannel (sourceOrgId targetOrgId : string) (ty : ChannelType)
| Route (task : DistributedTask.t)
| Broadcast (task : DistributedTask.t)
| PauseChannel (id : string)
| ResumeChannel (fuel : nat) (id : string)
| FireDelivery.

Definition outcome_state (o : outcome) : state :=
  match o with
  | Finished st | Rejected _ st | OutOfFuel st => st
  end.

Definition result_state (r : result state) (st : state) : state :=
  match r with
  | Ok st' => st'
  | Throw _ => st
  end.

Definition step (o : op) (st : state) : state :=
  match o with
  | RegisterOrganization org => registerOrganization org st
  | CreateChannel s t ty => snd (createChannel s t ty st)
  | Route task => result_state (route task st) st
  | Broadcast task => result_state (broadcast task st) st
  | PauseChannel id => pauseChannel id st
  | ResumeChannel fuel id => outcome_state (resumeChannel fuel id st)
  | FireDelivery => fireDelivery st
  end.

Definition run (ops : list op) (st : state) : state :=
  fold_left (fun st o => step o st) ops st.

(** The source organization of every queued task is registered. *)
Definition sources_known (st : state) : Prop :=
  forall task,
    In task (messageQueue st) ->
    JsMap.get (JsString.split_head (DistributedTask.sourceNode task))
              (organizations st) <> None.

(** The two invariants of the router. *)
Definition router_inv (st : state) : Prop :=
  channels_wf (channels st) /\ sources_known st.

Lemma route_inv task st st' :
  router_inv st -> route task st = Ok st' -> router_inv st'.
Proof.
  intros [Hwf Hsk] R. pose proof R as R'. apply route_Ok_inv in R'.
  destruct R' as [Hc [Ho Hq]]. split; [now rewrite Hc|].
  intros t Hin. rewrite Ho.
  destruct Hq as [[_ Hq]|[_ Hq]]; rewrite Hq in Hin.
  - apply in_app_or in Hin. destruct Hin as [Hin|[<-|[]]]; [now apply Hsk|].
    unfold route in R. now destruct (JsMap.get _ (organizations st)).
  - now apply Hsk.
Qed.

Lemma set_messageQueue_inv q st :
  router_inv st -> (forall t, In t q -> In t (messageQueue st)) ->
  router_inv (set_messageQueue q st).
Proof.
  intros [Hwf Hsk] Hsub. split; [exact Hwf|].
  intros t Hin. apply Hsk. now apply Hsub.
Qed.

Lemma processQueue_inv fuel : forall st,
  router_inv st ->
  router_inv (outcome_state (processQueue fuel st))
  /\ forall msg st', processQueue fuel st <> Rejected msg st'.
Proof.
  induction fuel as [|fuel IH]; intros st Hinv; simpl;
    destruct (messageQueue st) as [|hd rest] eqn:Q; simpl;
    try (split; [exact Hinv | discriminate]).
  assert (Hinv' : router_inv (set_messageQueue rest st)).
  { apply set_messageQueue_inv; [exact Hinv|].
    intros t Hin. rewrite Q. now right. }
  destruct (route hd (set_messageQueue rest st)) as [st1|msg] eqn:R.
  - apply IH. now apply route_inv with (task := hd) (st := set_messageQueue rest st).
  - exfalso. unfold route in R. simpl organizations in R.
    destruct Hinv as [_ Hsk]. specialize (Hsk hd).
    rewrite Q in Hsk. specialize (Hsk (or_introl eq_refl)).
    destruct (JsMap.get _ (organizations st)); [|congruence].
    destruct (findChannels hd (set_messageQueue rest st)); discriminate.
Qed.

Lemma channels_wf_set_status id c s cs :
  JsMap.get id cs = Some c -> channels_wf cs ->
  channels_wf (JsMap.set id (with_status s c) cs).
Proof.
  intros G Hwf k c' Hin. apply In_set_inv in Hin.
  destruct Hin as [[-> ->]|Hin]; [|now apply Hwf].
  apply JsMap.get_In in G. now apply Hwf in G.
Qed.

Lemma broadcast_loop_inv task src orgs : forall st st',
  router_inv st -> broadcast_loop task src orgs st = Ok st' -> router_inv st'.
Proof.
  induction orgs as [|[orgId org] r IH]; intros st st' Hinv B; simpl in B.
  - inversion B. now subst.
  - destruct (negb (String.eqb orgId src)); [|now apply IH with st].
    destruct (route (broadcastTask task orgId) st) as [st1|] eqn:R;
      [|discriminate].
    apply IH with st1; [|exact B]. now apply route_inv in R.
Qed.

Lemma router_inv_step o st : router_inv st -> router_inv (step o st).
Proof.
  intros Hinv. pose proof Hinv as [Hwf Hsk].
  destruct o as [org|s t ty|task|task|id|fuel id|]; simpl.
  - split; [exact Hwf|]. intros task Hin. simpl.
    destruct (String.eqb_spec
                (JsString.split_head (DistributedTask.sourceNode task))
                (OrganizationContext.orgId org)) as [->|Hne].
    + rewrite JsMap.get_set_same. discriminate.
    + rewrite JsMap.get_set_other by exact Hne. now apply Hsk.
  - split; [now apply channels_wf_createChannel | exact Hsk].
  - destruct (route task st) as [st'|] eqn:R; simpl; [|exact Hinv].
    now apply route_inv in R.
  - destruct (broadcast task st) as [st'|] eqn:B; simpl; [|exact Hinv].
    now apply broadcast_loop_inv in B.
  - split; [now apply channels_wf_pauseChannel|].
    unfold pauseChannel. now destruct (JsMap.get id (channels st)).
  - unfold resumeChannel.
    destruct (JsMap.get id (channels st)) as [c|] eqn:G; [|exact Hinv].
    apply processQueue_inv. split; simpl; [|exact Hsk].
    now apply channels_wf_set_status.
  - unfold fireDelivery. destruct (deliveries st) as [|[task c] r];
      [exact Hinv|]. split; [exact Hwf | exact Hsk].
Qed.

(** X15. In every state the router reaches from the empty one, each
    channel record is stored under the identifier of its own triple and
    every queued task has a registered source organization; so the loop
    started by [resumeChannel] is never rejected by a throwing [route]. *)
Theorem reachable_router_never_rejects ops fuel id :
  channels_wf (channels (run ops init))
  /\ sources_known (run ops init)
  /\ forall msg st', resumeChannel fuel id (run ops init) <> Rejected msg st'.
Proof.
  assert (Hrun : forall st, router_inv st -> router_inv (run ops st)).
  { induction ops as [|o ops IH]; intros st Hinv; simpl; [exact Hinv|].
    apply IH. now apply router_inv_step. }
  assert (Hinv : router_inv (run ops init)).
  { apply Hrun. split; [intros k c [] | intros t []]. }
  destruct Hinv as [Hwf Hsk]. split; [exact Hwf|]. split; [exact Hsk|].
  unfold resumeChannel.
  destruct (JsMap.get id (channels (run ops init))) as [c|] eqn:G;
    [|discriminate].
  apply processQueue_inv. split; simpl; [|exact Hsk].
  now apply channels_wf_set_status.
Qed.

(** ** Draining the queue *)

Lemma processQueue_delivers : forall q fuel st,
  messageQueue st = q ->
  length q <= fuel ->
  (forall task, In task q ->
     JsMap.get (JsString.split_head (DistributedTask.sourceNode task))
               (organizations st) <> None
     /\ findChannels task st <> []) ->
  exists st', processQueue fuel st = Finished st'
              /\ messageQueue st' = []
              /\ channels st' = channels st
              /\ map fst (deliveries st') = map fst (deliveries st) ++ q.
Proof.
  induction q as [|hd rest IH]; intros fuel st Q Hfuel Hall.
  - exists st. destruct fuel; simpl; rewrite Q; rewrite app_nil_r;
      now repeat split.
  - destruct fuel as [|fuel]; [simpl in Hfuel; lia|].
    simpl. rewrite Q.
    destruct (Hall hd (or_introl eq_refl)) as [Horg Hch].
    unfold route. simpl organizations.
    destruct (JsMap.get _ (organizations st)) eqn:G; [|congruence].
    rewrite (findChannels_channels hd st (set_messageQueue rest st) eq_refl).
    destruct (findChannels hd st) as [|ch chs] eqn:F; [congruence|].
    match goal with |- context [processQueue _ ?s] => set (st1 := s) end.
    destruct (IH fuel st1) as [st' [H1 [H2 [H3 H4]]]].
    + reflexivity.
    + simpl in Hfuel. lia.
    + intros task Hin. destruct (Hall task (or_intror Hin)) as [Ho Hc].
      split; [exact Ho|].
      now rewrite (findChannels_channels task st st1 eq_refl).
    + exists st'. split; [exact H1|]. split; [exact H2|].
      split; [exact H3|]. rewrite H4. subst st1. simpl.
      rewrite map_app. simpl. now rewrite <- app_assoc.
Qed.

(** The state [resumeChannel] starts its loop from. *)
Definition resumed (id : string) (c : MultiplexChannel.t) (st : state)
  : state :=
  emit (channel_resumed (with_status active c))
       (set_channels (JsMap.set id (with_status active c) (channels st)) st).

(** X16. When, with the resumed channel active, every queued task has a
    registered source and an active agent2agent channel, the loop started
    by [resumeChannel] exits after one iteration per queued task: the queue
    is empty, one delivery is scheduled per task in queue order, and the
    resumed channel is [active]. *)
Theorem resumeChannel_delivers_backlog id c fuel st :
  JsMap.get id (channels st) = Some c ->
  length (messageQueue st) <= fuel ->
  (forall task,
      In task (messageQueue st) ->
      JsMap.get (JsString.split_head (DistributedTask.sourceNode task))
                (organizations st) <> None
      /\ findChannels task (resumed id c st) <> []) ->
  exists st',
    resumeChannel fuel id st = Finished st'
    /\ messageQueue st' = []
    /\ map fst (deliveries st') = map fst (deliveries st) ++ messageQueue st
    /\ JsMap.get id (channels st') = Some (with_status active c).
Proof.
  intros Hget Hfuel Hall. unfold resumeChannel. rewrite Hget. cbv zeta.
  fold (resumed id c st).
  destruct (processQueue_delivers (messageQueue st) fuel (resumed id c st))
    as [st' [H1 [H2 [H3 H4]]]]; [reflexivity | exact Hfuel | exact Hall |].
  exists st'. split; [exact H1|]. split; [exact H2|]. split; [exact H4|].
  rewrite H3. simpl. apply JsMap.get_set_same.
Qed.

(** [tq] is queued while the channel from [a] to [b] is paused; resuming
    the channel delivers it. *)
Definition st_ab_paused_backlog : state :=
  result_state (route tq (pauseChannel "a->b:agent2agent" st_ab)) st_ab.

Lemma resumeChannel_delivers_backlog_witness :
  messageQueue st_ab_paused_backlog = [tq]
  /\ exists st',
      resumeChannel 1 "a->b:agent2agent" st_ab_paused_backlog = Finished st'
      /\ messageQueue st' = []
      /\ map fst (deliveries st')
         = map fst (deliveries st_ab_paused_backlog)
           ++ messageQueue st_ab_paused_backlog
      /\ JsMap.get "a->b:agent2agent" (channels st')
         = Some (with_status active
                   (MultiplexChannel.mk "a" "b" agent2agent paused)).
Proof.
  split; [reflexivity|].
  apply (resumeChannel_delivers_backlog "a->b:agent2agent"
           (MultiplexChannel.mk "a" "b" agent2agent paused) 1
           st_ab_paused_backlog).
  - reflexivity.
  - simpl. lia.
  - intros task [<-|[]]. split; discriminate.
Defined.

(** [processQueue_never_finishes] at the backlog of [st_backlog]: the loop
    over the queue holding [tq] never exits. *)
Lemma processQueue_never_finishes_witness :
  ~ exists st', processQueue 5 st_backlog = Finished st'.
Proof.
  intros [st' H].
  apply (processQueue_never_finishes 5 st_backlog tq) with (st' := st').
  - simpl. now left.
  - split; [discriminate | reflexivity].
  - exact H.
Defined.

(** ** Channel identifiers *)

Fixpoint no_char (c : ascii) (s : string) : bool :=
  match s with
  | EmptyString => true
  | String d r => negb (Ascii.eqb d c) && no_char c r
  end.

Lemma arrow_split_inj s s' r r' :
  no_char ">" s = true -> no_char ">" s' = true ->
  (s ++ "->" ++ r)%string = (s' ++ "->" ++ r')%string ->
  s = s' /\ r = r'.
Proof.
  revert s'; induction s as [|c s IH]; intros [|c' s'] Hs Hs' H; simpl in *.
  - inversion H. now split.
  - inversion H as [[Hc Hr]]. subst c'. destruct s' as [|d s'']; simpl in *.
    + inversion Hr.
    + inversion Hr; subst d. simpl in Hs'. discriminate.
  - inversion H as [[Hc Hr]]. subst c. destruct s as [|d s'']; simpl in *.
    + inversion Hr.
    + inversion Hr; subst d. simpl in Hs. discriminate.
  - inversion H as [[Hc Hr]]. subst c'.
    apply andb_true_iff in Hs, Hs'.
    destruct (IH s' (proj2 Hs) (proj2 Hs') Hr) as [-> ->]. now split.
Qed.

Lemma list_ascii_of_string_inj a b :
  list_ascii_of_string a = list_ascii_of_string b -> a = b.
Proof.
  intros H. rewrite <- (string_of_list_ascii_of_string a),
              <- (string_of_list_ascii_of_string b). now rewrite H.
Qed.

Lemma type_suffix_inj t t' ty ty' :
  (t ++ ":" ++ channelType_str ty)%string
  = (t' ++ ":" ++ channelType_str ty')%string ->
  t = t' /\ ty = ty'.
Proof.
  intros H. apply (f_equal list_ascii_of_string) in H.
  rewrite !list_ascii_of_string_app in H.
  destruct ty, ty';
    try (apply app_inv_tail in H; apply list_ascii_of_string_inj in H;
         now split);
    apply (f_equal (@rev ascii)) in H; rewrite !rev_app_distr in H;
    simpl in H; discriminate.
Qed.

(** X17. Channel identifiers separate the triples whose source
    organization ids contain no ['>']: two such triples with the same
    identifier are the same triple. *)
Theorem channelId_injective s t ty s' t' ty' :
  no_char ">" s = true -> no_char ">" s' = true ->
  channelId s t ty = channelId s' t' ty' ->
  s = s' /\ t = t' /\ ty = ty'.
Proof.
  intros Hs Hs' H. unfold channelId in H.
  apply arrow_split_inj in H; [|exact Hs|exact Hs'].
  destruct H as [-> H]. apply type_suffix_inj in H. tauto.
Qed.

Lemma channelId_injective_witness :
  "org-1" = "org-1" /\ "org-2" = "org-2" /\ org2org = org2org.
Proof.
  apply (channelId_injective "org-1" "org-2" org2org "org-1" "org-2" org2org);
    reflexivity.
Defined.

Lemma string_app_assoc (a b c : string) :
  ((a ++ b) ++ c)%string = (a ++ b ++ c)%string.
Proof. induction a as [|d a IH]; simpl; [reflexivity | now rewrite IH]. Qed.

(** X18. Without that condition the identifier does not determine the
    triple: moving an arrow between the two organization ids gives the same
    identifier, so creating the second channel overwrites the record of the
    first. *)
Theorem channelId_collision s x t ty ty' st :
  channelId (s ++ "->" ++ x) t ty = channelId s (x ++ "->" ++ t) ty
  /\ getChannelStatus (channelId (s ++ "->" ++ x) t ty)
       (snd (createChannel s (x ++ "->" ++ t) ty
               (snd (createChannel (s ++ "->" ++ x) t ty st))))
     = Some (MultiplexChannel.mk s (x ++ "->" ++ t) ty active)
  /\ stat_channels
       (getStats (snd (createChannel s (x ++ "->" ++ t) ty
                         (snd (createChannel (s ++ "->" ++ x) t ty st)))))
     = stat_channels (getStats (snd (createChannel (s ++ "->" ++ x) t ty st)))
  /\ (ty <> ty' -> channelId s t ty <> channelId s t ty').
Proof.
  assert (Hid : channelId (s ++ "->" ++ x) t ty
                = channelId s (x ++ "->" ++ t) ty).
  { unfold channelId. now rewrite !string_app_assoc. }
  split; [exact Hid|]. split; [|split].
  - rewrite Hid. unfold getChannelStatus, createChannel. simpl.
    apply JsMap.get_set_same.
  - assert (Hch : forall a b st0,
               channels (snd (createChannel a b ty st0))
               = JsMap.set (channelId a b ty)
                   (MultiplexChannel.mk a b ty active) (channels st0))
      by reflexivity.
    unfold getStats. cbn [stat_channels]. unfold JsMap.size.
    rewrite (Hch s), (Hch (s ++ "->" ++ x)%string), <- Hid.
    rewrite CoordinatorExtras.length_set.
    now rewrite JsMap.get_set_same.
  - intros Hty Heq. unfold channelId in Heq.
    assert (H : (s ++ "->" ++ t ++ ":" ++ channelType_str ty)%string
                = ((s ++ "->" ++ t) ++ ":" ++ channelType_str ty)%string)
      by now rewrite !string_app_assoc.
    assert (H' : (s ++ "->" ++ t ++ ":" ++ channelType_str ty')%string
                 = ((s ++ "->" ++ t) ++ ":" ++ channelType_str ty')%string)
      by now rewrite !string_app_assoc.
    rewrite H, H' in Heq. apply type_suffix_inj in Heq. tauto.
Qed.

End RouterExtras.

(** * The memory surface

    [MemorySurface] is the store the orchestrator ([ASISystem]) writes a
    fragment to for every completed task and delivered message. A
    JavaScript [Set<string>] is an insertion-ordered list without
    repetitions. *)

Module MemoryFragment.
Record t := mk {
  id : string;
  timestamp : Z;
  platformId : string;
  conversationId : string;
  contentHash : string;
  recursiveDepth : Z;
  parentReferences : list string;
  content : string
}.
End MemoryFragment.

Module MemorySurface.

Import MemoryFragment.

Record state := mkState {
  fragments : JsMap.t MemoryFragment.t;
  indexByPlatform : JsMap.t (list string);
  indexByConversation : JsMap.t (list string);
  indexByParent : JsMap.t (list string)
}.

(** [clear()], and the state of a new surface. *)
Definition clear : state := mkState [] [] [] [].

(** [set.add(x)] *)
Definition set_add (x : string) (s : list string) : list string :=
  if existsb (String.eqb x) s then s else s ++ [x].

(** [if (!index.has(key)) index.set(key, new Set()); index.get(key)!.add(x)] *)
Definition index_add (key x : string) (idx : JsMap.t (list string))
  : JsMap.t (list string) :=
  let idx :=
    match JsMap.get key idx with
    | Some _ => idx
    | None => JsMap.set key [] idx
    end in
  match JsMap.get key idx with
  | Some s => JsMap.set key (set_add x s) idx
  | None => idx
  end.

Definition store (fragment : MemoryFragment.t) (st : state) : state :=
  mkState
    (JsMap.set (id fragment) fragment (fragments st))
    (index_add (platformId fragment) (id fragment) (indexByPlatform st))
    (index_add (conversationId fragment) (id fragment)
               (indexByConversation st))
    (fold_left (fun idx parentId => index_add parentId (id fragment) idx)
               (parentReferences fragment) (indexByParent st)).

Definition retrieve (i : string) (st : state) : option MemoryFragment.t :=
  JsMap.get i (fragments st).

(** [Array.from(ids).map(id => fragments.get(id)).filter(f => f !== undefined)] *)
Fixpoint lookup (frs : JsMap.t MemoryFragment.t) (ids : list string)
  : list MemoryFragment.t :=
  match ids with
  | [] => []
  | i :: r =>
      match JsMap.get i frs with
      | Some f => f :: lookup frs r
      | None => lookup frs r
      end
  end.

Definition queryByPlatform (p : string) (st : state)
  : list MemoryFragment.t :=
  match JsMap.get p (indexByPlatform st) with
  | None => []
  | Some ids => lookup (fragments st) ids
  end.

Definition by_timestamp (a b : MemoryFragment.t) : Z :=
  (timestamp a - timestamp b)%Z.

Definition queryByConversation (c : string) (st : state)
  : list MemoryFragment.t :=
  match JsMap.get c (indexByConversation st) with
  | None => []
  | Some ids => js_sort by_timestamp (lookup (fragments st) ids)
  end.

Definition getChildren (parentId : string) (st : state)
  : list MemoryFragment.t :=
  match JsMap.get parentId (indexByParent st) with
  | None => []
  | Some ids => lookup (fragments st) ids
  end.

(** [traverse(fragmentId, depth)] of [buildTree], on the pair (visited,
    tree); [rem] is the number of levels still allowed,
    [maxDepth + 1 - depth], so [rem = 0] is [depth > maxDepth]. *)
Fixpoint traverse (st : state) (rem : nat) (fragmentId : string)
         (acc : list string * list MemoryFragment.t)
  : list string * list MemoryFragment.t :=
  match rem with
  | O => acc
  | S rem =>
      if existsb (String.eqb fragmentId) (fst acc) then acc
      else
        match JsMap.get fragmentId (fragments st) with
        | None => acc
        | Some fragment =>
            let acc := (fst acc ++ [fragmentId], snd acc ++ [fragment]) in
            fold_left (fun acc child => traverse st rem (id child) acc)
                      (getChildren fragmentId st) acc
        end
  end.

(** [buildTree(rootId, maxDepth)], for a [maxDepth] that is a natural
    number (10 by default). *)
Definition buildTree (rootId : string) (maxDepth : nat) (st : state)
  : list MemoryFragment.t :=
  snd (traverse st (S maxDepth) rootId ([], [])).

(** [snapshot().fragments] *)
Definition snapshot (st : state) : list MemoryFragment.t :=
  JsMap.values (fragments st).

(** [restore(snapshot)]: whatever the surface held is cleared first. *)
Definition restore (snap : list MemoryFragment.t) : state :=
  fold_left (fun st fragment => store fragment st) snap clear.

(** Every fragment is stored under its own [id], once. *)
Definition fragments_wf (st : state) : Prop :=
  NoDup (JsMap.keys (fragments st))
  /\ forall k f, In (k, f) (fragments st) -> k = id f.

End MemorySurface.

(** * Properties of the memory surface *)

Module MemorySurfaceCorrect.

Import MemoryFragment MemorySurface.

Lemma set_add_In x y s : In y (set_add x s) <-> y = x \/ In y s.
Proof.
  unfold set_add. destruct (existsb (String.eqb x) s) eqn:E.
  - split; [tauto|]. intros [->|H]; [|exact H].
    apply existsb_exists in E. destruct E as [z [Hz E]].
    apply String.eqb_eq in E. now subst.
  - rewrite in_app_iff. simpl. split; intros [H|H]; try tauto.
    + destruct H as [H|[]]. now left.
    + right. now left.
Qed.

Lemma index_add_get_same key x idx :
  exists s, JsMap.get key (index_add key x idx) = Some s /\ In x s.
Proof.
  unfold index_add. cbv zeta.
  destruct (JsMap.get key idx) as [s|] eqn:G; cbv iota.
  - rewrite G. rewrite JsMap.get_set_same. eexists. split; [reflexivity|].
    apply set_add_In. now left.
  - rewrite JsMap.get_set_same. rewrite JsMap.get_set_same.
    eexists. split; [reflexivity|]. apply set_add_In. now left.
Qed.

Lemma index_add_mono key x k y s idx :
  JsMap.get k idx = Some s -> In y s ->
  exists s', JsMap.get k (index_add key x idx) = Some s' /\ In y s'.
Proof.
  intros G Hin. destruct (String.eqb_spec k key) as [->|Hne].
  - unfold index_add. cbv zeta. rewrite G. cbv iota. rewrite G.
    rewrite JsMap.get_set_same.
    eexists. split; [reflexivity|]. apply set_add_In. now right.
  - exists s. split; [|exact Hin]. unfold index_add. cbv zeta.
    destruct (JsMap.get key idx) as [s0|] eqn:G0; cbv iota.
    + rewrite G0. now rewrite JsMap.get_set_other.
    + rewrite JsMap.get_set_same. now rewrite !JsMap.get_set_other.
Qed.

Lemma fold_index_add_mono ps x : forall k y s idx,
  JsMap.get k idx = Some s -> In y s ->
  exists s',
    JsMap.get k (fold_left (fun idx p => index_add p x idx) ps idx) = Some s'
    /\ In y s'.
Proof.
  induction ps as [|p ps IH]; intros k y s idx G Hin; simpl.
  - now exists s.
  - destruct (index_add_mono p x k y s idx G Hin) as [s1 [G1 H1]].
    now apply IH with s1.
Qed.

Lemma fold_index_add_In ps x : forall p idx,
  In p ps ->
  exists s,
    JsMap.get p (fold_left (fun idx p => index_add p x idx) ps idx) = Some s
    /\ In x s.
Proof.
  induction ps as [|p0 ps IH]; intros p idx Hin; simpl; [contradiction|].
  destruct Hin as [->|Hin]; [|now apply IH].
  destruct (index_add_get_same p x idx) as [s [G H]].
  now apply fold_index_add_mono with s.
Qed.

Lemma lookup_In frs ids f :
  In f (lookup frs ids) <-> exists i, In i ids /\ JsMap.get i frs = Some f.
Proof.
  induction ids as [|i r IH]; simpl.
  - split; [tauto | intros [i [[] _]]].
  - destruct (JsMap.get i frs) as [f0|] eqn:G; simpl; rewrite IH; split.
    + intros [<-|[j [H1 H2]]]; [exists i; tauto | exists j; tauto].
    + intros [j [[<-|H1] H2]]; [left; congruence | right; exists j; tauto].
    + intros [j [H1 H2]]. exists j. tauto.
    + intros [j [[<-|H1] H2]]; [congruence | exists j; tauto].
Qed.

Section SortFacts.
Context {A : Type} (cmp : A -> A -> Z).

Lemma sort_insert_In x y l : In y (sort_insert cmp x l) <-> y = x \/ In y l.
Proof.
  induction l as [|z l IH]; simpl.
  - split; [intros [H|[]]; now left | intros [H|[]]; now left].
  - destruct (cmp x z <=? 0)%Z; simpl; [|rewrite IH];
      split; intros H; intuition auto.
Qed.

Lemma js_sort_In y l : In y (js_sort cmp l) <-> In y l.
Proof.
  induction l as [|x l IH]; simpl; [tauto|].
  rewrite sort_insert_In, IH. split; intros [H|H]; auto.
Qed.

Lemma js_sort_length l : length (js_sort cmp l) = length l.
Proof.
  assert (H : forall x l', length (sort_insert cmp x l') = S (length l')).
  { intros x l'. induction l' as [|z l' IH]; simpl; [reflexivity|].
    destruct (cmp x z <=? 0)%Z; simpl; [reflexivity | now rewrite IH]. }
  induction l as [|x l IH]; simpl; [reflexivity|]. now rewrite H, IH.
Qed.
End SortFacts.

(** Ascending by timestamp: each element is no later than all that follow. *)
Fixpoint ascending (l : list MemoryFragment.t) : Prop :=
  match l with
  | [] => True
  | x :: r =>
      (forall y, In y r -> (timestamp x <= timestamp y)%Z) /\ ascending r
  end.

Lemma sort_insert_ascending x l :
  ascending l -> ascending (sort_insert by_timestamp x l).
Proof.
  induction l as [|z l IH]; simpl; [tauto|].
  intros [Hz Hl]. unfold by_timestamp at 1.
  destruct (Z.leb_spec (timestamp x - timestamp z) 0); simpl.
  - split; [|tauto]. intros y [<-|Hy]; [lia|].
    specialize (Hz y Hy). lia.
  - split; [|now apply IH]. intros y Hy.
    apply sort_insert_In in Hy. destruct Hy as [->|Hy]; [lia | now apply Hz].
Qed.

Lemma js_sort_ascending l : ascending (js_sort by_timestamp l).
Proof.
  induction l as [|x l IH]; simpl; [exact I|].
  now apply sort_insert_ascending.
Qed.

(** ** Scenario data *)

Definition f_task : MemoryFragment.t :=
  MemoryFragment.mk "task-t1" 30 "botnet" "t1" "t1" 0 [] "".

Definition f_delivery : MemoryFragment.t :=
  MemoryFragment.mk "delivery-t1-20" 20 "multiplex" "t1" "t1" 0 ["task-t1"] "".

Definition st_two : state := store f_delivery (store f_task clear).

(** X20. A stored fragment is retrieved by its id, and is returned by the
    query of its platform, of its conversation and of each of its
    parents; fragments with other ids are retrieved as before. *)
Theorem store_then_query fragment st :
  retrieve (id fragment) (store fragment st) = Some fragment
  /\ (forall i, i <> id fragment ->
         retrieve i (store fragment st) = retrieve i st)
  /\ In fragment (queryByPlatform (platformId fragment) (store fragment st))
  /\ In fragment
        (queryByConversation (conversationId fragment) (store fragment st))
  /\ (forall p, In p (parentReferences fragment) ->
                In fragment (getChildren p (store fragment st))).
Proof.
  assert (Hget : JsMap.get (id fragment) (fragments (store fragment st))
                 = Some fragment) by apply JsMap.get_set_same.
  split; [exact Hget|]. split; [|split; [|split]].
  - intros i Hi. unfold retrieve. simpl. now apply JsMap.get_set_other.
  - unfold queryByPlatform. simpl indexByPlatform.
    destruct (index_add_get_same (platformId fragment) (id fragment)
                (indexByPlatform st)) as [s [G H]].
    rewrite G. apply lookup_In. now exists (id fragment).
  - unfold queryByConversation. simpl indexByConversation.
    destruct (index_add_get_same (conversationId fragment) (id fragment)
                (indexByConversation st)) as [s [G H]].
    rewrite G. apply js_sort_In, lookup_In. now exists (id fragment).
  - intros p Hp. unfold getChildren. simpl indexByParent.
    destruct (fold_index_add_In (parentReferences fragment) (id fragment) p
                (indexByParent st) Hp) as [s [G H]].
    rewrite G. apply lookup_In. now exists (id fragment).
Qed.

Lemma store_then_query_witness :
  In f_delivery (getChildren "task-t1" (store f_delivery (store f_task clear))).
Proof.
  apply (store_then_query f_delivery (store f_task clear)). simpl. now left.
Defined.

(** X21. [queryByConversation] returns its fragments in ascending order of
    timestamp, whatever the order in which they were stored; they are the
    fragments the conversation's index leads to, each once per index
    entry. *)
Theorem queryByConversation_ascending c st :
  ascending (queryByConversation c st)
  /\ (forall f,
         In f (queryByConversation c st)
         <-> exists ids i,
             JsMap.get c (indexByConversation st) = Some ids
             /\ In i ids /\ retrieve i st = Some f)
  /\ length (queryByConversation c st)
     = match JsMap.get c (indexByConversation st) with
       | Some ids => length (lookup (fragments st) ids)
       | None => 0
       end.
Proof.
  unfold queryByConversation, retrieve.
  destruct (JsMap.get c (indexByConversation st)) as [ids|].
  - split; [apply js_sort_ascending|]. split; [|apply js_sort_length].
    intros f. rewrite js_sort_In, lookup_In. split.
    + intros [i [H1 H2]]. now exists ids, i.
    + intros [ids' [i [Heq [H1 H2]]]]. inversion Heq; subst. now exists i.
  - split; [exact I|]. split; [|reflexivity].
    intros f. split; [intros [] | intros [ids [i [H _]]]; discriminate].
Qed.

(** X22. [store] never removes an index entry: when a fragment is stored
    again under the same id with another conversation or platform, the
    queries of the old conversation and platform return the new
    fragment. *)
Theorem store_overwrite_keeps_old_index f1 f2 st :
  id f1 = id f2 ->
  retrieve (id f1) (store f2 (store f1 st)) = Some f2
  /\ In f2 (queryByConversation (conversationId f1) (store f2 (store f1 st)))
  /\ In f2 (queryByPlatform (platformId f1) (store f2 (store f1 st))).
Proof.
  intros Hid.
  assert (Hget : JsMap.get (id f1) (fragments (store f2 (store f1 st)))
                 = Some f2).
  { simpl. rewrite Hid. apply JsMap.get_set_same. }
  split; [exact Hget|]. split.
  - unfold queryByConversation. simpl indexByConversation.
    destruct (index_add_get_same (conversationId f1) (id f1)
                (indexByConversation st)) as [s [G H]].
    destruct (index_add_mono (conversationId f2) (id f2) _ _ _ _ G H)
      as [s' [G' H']].
    rewrite G'. apply js_sort_In, lookup_In. now exists (id f1).
  - unfold queryByPlatform. simpl indexByPlatform.
    destruct (index_add_get_same (platformId f1) (id f1)
                (indexByPlatform st)) as [s [G H]].
    destruct (index_add_mono (platformId f2) (id f2) _ _ _ _ G H)
      as [s' [G' H']].
    rewrite G'. apply lookup_In. now exists (id f1).
Qed.

Definition f_moved : MemoryFragment.t :=
  MemoryFragment.mk "task-t1" 40 "multiplex" "t2" "t2" 0 [] "".

Lemma store_overwrite_keeps_old_index_witness :
  retrieve "task-t1" (store f_moved (store f_task clear)) = Some f_moved
  /\ In f_moved (queryByConversation "t1" (store f_moved (store f_task clear)))
  /\ In f_moved (queryByPlatform "botnet" (store f_moved (store f_task clear))).
Proof.
  apply (store_overwrite_keeps_old_index f_task f_moved clear). reflexivity.
Defined.

(** ** Snapshot and restore *)

Lemma set_absent {V : Type} k (v : V) m :
  JsMap.get k m = None -> JsMap.set k v m = m ++ [(k, v)].
Proof.
  induction m as [|[k0 v0] r IH]; simpl; [reflexivity|].
  destruct (String.eqb k k0); [discriminate|]. intros H. now rewrite IH.
Qed.

Lemma fragments_fold_store l : forall st,
  fragments (fold_left (fun st f => store f st) l st)
  = fold_left (fun m f => JsMap.set (id f) f m) l (fragments st).
Proof.
  induction l as [|f l IH]; intros st; simpl; [reflexivity|]. now rewrite IH.
Qed.

Lemma fold_set_entries (m : JsMap.t MemoryFragment.t) : forall acc,
  NoDup (JsMap.keys (acc ++ m)) ->
  (forall k f, In (k, f) m -> k = id f) ->
  fold_left (fun a f => JsMap.set (id f) f a) (JsMap.values m) acc = acc ++ m.
Proof.
  induction m as [|[k f] r IH]; intros acc Hnd Hids; simpl.
  - now rewrite app_nil_r.
  - assert (Hk : k = id f) by (apply Hids; now left). subst k.
    assert (Hfresh : JsMap.get (id f) acc = None).
    { apply JsMap.get_None_not_In. intros Hin.
      unfold JsMap.keys in Hnd. rewrite map_app in Hnd. simpl in Hnd.
      apply NoDup_remove_2 in Hnd. apply Hnd. apply in_or_app. now left. }
    rewrite (set_absent _ _ _ Hfresh).
    rewrite IH.
    + now rewrite <- app_assoc.
    + now rewrite <- app_assoc.
    + intros k' f' Hin. apply Hids. now right.
Qed.

Lemma fragments_wf_store f st :
  fragments_wf st -> fragments_wf (store f st).
Proof.
  intros [Hnd Hids]. split; simpl.
  - now apply JsMap.NoDup_keys_set.
  - intros k f' Hin. apply RouterCorrect.In_set_inv in Hin.
    destruct Hin as [[-> ->]|Hin]; [reflexivity | now apply Hids].
Qed.

Lemma fragments_wf_restore snap : fragments_wf (restore snap).
Proof.
  unfold restore.
  assert (H : forall st, fragments_wf st ->
                         fragments_wf (fold_left (fun st f => store f st)
                                                 snap st)).
  { induction snap as [|f l IH]; intros st Hwf; simpl; [exact Hwf|].
    apply IH. now apply fragments_wf_store. }
  apply H. split; [constructor | intros k f []].
Qed.

(** X23. Restoring the snapshot of a surface gives back its fragment map,
    entry for entry and in the same order, provided every fragment is
    stored under its own id (which [store] keeps, from the empty surface
    on); every fragment is retrieved as before. *)
Theorem restore_snapshot st :
  fragments_wf st ->
  fragments (restore (snapshot st)) = fragments st
  /\ (forall i, retrieve i (restore (snapshot st)) = retrieve i st)
  /\ snapshot (restore (snapshot st)) = snapshot st.
Proof.
  intros [Hnd Hids].
  assert (H : fragments (restore (snapshot st)) = fragments st).
  { unfold restore, snapshot. rewrite fragments_fold_store. simpl.
    now rewrite (fold_set_entries (fragments st) [] Hnd Hids). }
  split; [exact H|]. split.
  - intros i. unfold retrieve. now rewrite H.
  - unfold snapshot at 1 3. now rewrite H.
Qed.

Lemma restore_snapshot_witness :
  fragments (restore (snapshot st_two)) = fragments st_two
  /\ (forall i, retrieve i (restore (snapshot st_two)) = retrieve i st_two)
  /\ snapshot (restore (snapshot st_two)) = snapshot st_two.
Proof.
  apply (restore_snapshot st_two).
  apply fragments_wf_store, fragments_wf_store.
  split; [constructor | intros k f []].
Defined.

(** ** Trees *)

(** What [traverse] keeps true of (visited, tree): the visited ids are
    distinct, they are the ids of the tree in order, and every fragment of
    the tree is stored. *)
Definition tree_inv (st : state)
           (acc : list string * list MemoryFragment.t) : Prop :=
  NoDup (fst acc)
  /\ map id (snd acc) = fst acc
  /\ forall f, In f (snd acc) -> retrieve (id f) st = Some f.

Lemma existsb_eqb_false x l :
  existsb (String.eqb x) l = false -> ~ In x l.
Proof.
  intros E Hin. assert (H : existsb (String.eqb x) l = true).
  { apply existsb_exists. exists x. split; [exact Hin|].
    apply String.eqb_refl. }
  congruence.
Qed.

Lemma NoDup_snoc {A : Type} (x : A) l :
  NoDup l -> ~ In x l -> NoDup (l ++ [x]).
Proof.
  intros Hnd Hnot. rewrite <- (rev_involutive (l ++ [x])).
  apply NoDup_rev. rewrite rev_app_distr. simpl.
  constructor; [now rewrite <- in_rev | now apply NoDup_rev].
Qed.

Lemma traverse_inv st rem :
  (forall k f, In (k, f) (fragments st) -> k = id f) ->
  forall i acc, tree_inv st acc -> tree_inv st (traverse st rem i acc).
Proof.
  intros Hids. induction rem as [|rem IH]; intros i acc Hinv; simpl;
    [exact Hinv|].
  destruct (existsb (String.eqb i) (fst acc)) eqn:E; [exact Hinv|].
  destruct (JsMap.get i (fragments st)) as [f|] eqn:G; [|exact Hinv].
  assert (Hid : i = id f) by now apply JsMap.get_In, Hids in G.
  assert (Hinv1 : tree_inv st (fst acc ++ [i], snd acc ++ [f])).
  { destruct Hinv as [H1 [H2 H3]]. split; [|split]; simpl.
    - apply NoDup_snoc; [exact H1 | now apply existsb_eqb_false].
    - rewrite map_app, H2. simpl. now rewrite Hid.
    - intros f' Hin. apply in_app_or in Hin.
      destruct Hin as [Hin|[<-|[]]]; [now apply H3|].
      unfold retrieve. now rewrite <- Hid. }
  generalize (getChildren i st). intros children.
  revert Hinv1. generalize (fst acc ++ [i], snd acc ++ [f]).
  induction children as [|c children IHc]; intros acc1 Hinv1; simpl;
    [exact Hinv1|].
  apply IHc. now apply IH.
Qed.

Lemma traverse_prefix st rem : forall i acc,
  exists more, snd (traverse st rem i acc) = snd acc ++ more.
Proof.
  induction rem as [|rem IH]; intros i acc; simpl.
  - exists []. now rewrite app_nil_r.
  - destruct (existsb (String.eqb i) (fst acc));
      [exists []; now rewrite app_nil_r|].
    destruct (JsMap.get i (fragments st)) as [f|];
      [|exists []; now rewrite app_nil_r].
    assert (H : forall children acc1,
               exists more,
                 snd (fold_left
                        (fun acc child => traverse st rem (id child) acc)
                        children acc1) = snd acc1 ++ more).
    { induction children as [|c children IHc]; intros acc1; simpl.
      - exists []. now rewrite app_nil_r.
      - destruct (IHc (traverse st rem (id c) acc1)) as [m1 H1].
        destruct (IH (id c) acc1) as [m2 H2].
        exists (m2 ++ m1). rewrite H1, H2. now rewrite app_assoc. }
    destruct (H (getChildren i st) (fst acc ++ [i], snd acc ++ [f]))
      as [more Hm].
    exists (f :: more). rewrite Hm. simpl. now rewrite <- app_assoc.
Qed.

(** X24. In a surface whose fragments are stored under their own ids,
    [buildTree] returns stored fragments with pairwise distinct ids, so a
    cycle of parent references cannot make it loop or repeat a fragment;
    the tree of a stored root starts with the root, and the tree of an
    unknown root is empty. *)
Theorem buildTree_distinct rootId maxDepth st :
  fragments_wf st ->
  NoDup (map id (buildTree rootId maxDepth st))
  /\ (forall f, In f (buildTree rootId maxDepth st) ->
                retrieve (id f) st = Some f)
  /\ (forall root, retrieve rootId st = Some root ->
                   exists rest, buildTree rootId maxDepth st = root :: rest)
  /\ (retrieve rootId st = None -> buildTree rootId maxDepth st = []).
Proof.
  intros [Hnd Hids]. unfold buildTree.
  assert (Hinv : tree_inv st (traverse st (S maxDepth) rootId ([], []))).
  { apply traverse_inv; [exact Hids|].
    split; [constructor | split; [reflexivity | intros f []]]. }
  destruct Hinv as [H1 [H2 H3]].
  split; [now rewrite H2|]. split; [exact H3|]. split.
  - intros root Hroot. unfold retrieve in Hroot. simpl. rewrite Hroot.
    assert (H : forall children acc1,
               exists more,
                 snd (fold_left
                        (fun acc child =>
                           traverse st maxDepth (id child) acc)
                        children acc1) = snd acc1 ++ more).
    { induction children as [|c children IHc]; intros acc1; simpl.
      - exists []. now rewrite app_nil_r.
      - destruct (IHc (traverse st maxDepth (id c) acc1)) as [m1 E1].
        destruct (traverse_prefix st maxDepth (id c) acc1) as [m2 E2].
        exists (m2 ++ m1). rewrite E1, E2. now rewrite app_assoc. }
    destruct (H (getChildren rootId st) ([rootId], [root])) as [more Hm].
    exists more. simpl in Hm. exact Hm.
  - intros Hnone. unfold retrieve in Hnone. simpl. now rewrite Hnone.
Qed.

(** Two fragments that name each other as parent. *)
Definition f_loop1 : MemoryFragment.t :=
  MemoryFragment.mk "x" 1 "p" "c" "h" 0 ["y"] "".
Definition f_loop2 : MemoryFragment.t :=
  MemoryFragment.mk "y" 2 "p" "c" "h" 1 ["x"] "".
Definition st_loop : state := store f_loop2 (store f_loop1 clear).

Lemma buildTree_distinct_witness :
  buildTree "x" 10 st_loop = [f_loop1; f_loop2]
  /\ NoDup (map id (buildTree "x" 10 st_loop)).
Proof.
  split; [reflexivity|].
  apply (buildTree_distinct "x" 10 st_loop).
  apply fragments_wf_store, fragments_wf_store.
  split; [constructor | intros k f []].
Defined.

End MemorySurfaceCorrect.

(** * The session manager (session/manager.ts)

    The store of sessions with its periodic sync timers and its clean-up.
    The handoff tokens (base64 of [sessionId:expiry]) are not part of the
    embedding. *)

Inductive PersistenceModel := incremental_snapshot | full_sync | event_sourced.

Module SessionState.
(** [metadata: Record<string, any>] is carried as opaque strings. *)
Record t := mk {
  sessionId : string;
  platform : string;
  authToken : option string;
  persistenceModel : PersistenceModel;
  lastSync : Z;
  metadata : list (string * string)
}.

Definition with_lastSync (v : Z) (s : t) : t :=
  mk (sessionId s) (platform s) (authToken s) (persistenceModel s) v
     (metadata s).

(** [Partial<SessionState>]: the fields an update gives. *)
Record partial := mkPartial {
  p_sessionId : option string;
  p_platform : option string;
  p_authToken : option (option string);
  p_persistenceModel : option PersistenceModel;
  p_lastSync : option Z;
  p_metadata : option (list (string * string))
}.

Definition or_else {A : Type} (o : option A) (d : A) : A :=
  match o with Some v => v | None => d end.

(** [{ ...session, ...updates }] *)
Definition spread (s : t) (u : partial) : t :=
  mk (or_else (p_sessionId u) (sessionId s))
     (or_else (p_platform u) (platform s))
     (or_else (p_authToken u) (authToken s))
     (or_else (p_persistenceModel u) (persistenceModel s))
     (or_else (p_lastSync u) (lastSync s))
     (or_else (p_metadata u) (metadata s)).
End SessionState.

Module SessionManager.

Import SessionState.

(** [intervals] are the live [setInterval] timers (handle, sessionId). *)
Record state := mkState {
  sessions : JsMap.t SessionState.t;
  syncTimers : JsMap.t nat;
  intervals : list (nat * string);
  nextHandle : nat
}.

Definition syncInterval : Z := 15000.

Definition init : state := mkState [] [] [] 0.

Definition set_sessions v st :=
  mkState v (syncTimers st) (intervals st) (nextHandle st).

(** [clearInterval(h)] *)
Definition clearInterval (h : nat) (l : list (nat * string))
  : list (nat * string) :=
  filter (fun e => negb (Nat.eqb (fst e) h)) l.

Definition setupSync (id : string) (st : state) : state :=
  let live :=
    match JsMap.get id (syncTimers st) with
    | Some existingTimer => clearInterval existingTimer (intervals st)
    | None => intervals st
    end in
  let timer := nextHandle st in
  mkState (sessions st) (JsMap.set id timer (syncTimers st))
          (live ++ [(timer, id)]) (S timer).

Definition createSession (session : SessionState.t) (st : state) : state :=
  setupSync (sessionId session)
    (set_sessions (JsMap.set (sessionId session) session (sessions st)) st).

Definition getSession (id : string) (st : state) : option SessionState.t :=
  JsMap.get id (sessions st).

Definition updateSession (id : string) (updates : partial) (st : state)
  : state :=
  match JsMap.get id (sessions st) with
  | Some session =>
      set_sessions (JsMap.set id (spread session updates) (sessions st)) st
  | None => st
  end.

(** The callback of a sync timer. *)
Definition syncSession (now : Z) (id : string) (st : state) : state :=
  match JsMap.get id (sessions st) with
  | None => st
  | Some session =>
      set_sessions (JsMap.set id (with_lastSync now session) (sessions st)) st
  end.

Definition terminateSession (id : string) (st : state) : state :=
  let st :=
    match JsMap.get id (syncTimers st) with
    | Some timer =>
        mkState (sessions st) (JsMap.delete id (syncTimers st))
                (clearInterval timer (intervals st)) (nextHandle st)
    | None => st
    end in
  set_sessions (JsMap.delete id (sessions st)) st.

Definition getActiveSessions (st : state) : list SessionState.t :=
  JsMap.values (sessions st).

Definition getSessionsByPlatform (p : string) (st : state)
  : list SessionState.t :=
  filter (fun s => String.eqb (platform s) p) (JsMap.values (sessions st)).

Definition expired (maxAge now : Z) (s : SessionState.t) : bool :=
  (now - lastSync s >? maxAge)%Z.

(** [cleanup(maxAge)]: the loop visits every entry of the map once; the
    only entry it deletes is the one it is visiting. *)
Definition cleanup (maxAge now : Z) (st : state) : state :=
  fold_left (fun st e =>
               if expired maxAge now (snd e)
               then terminateSession (fst e) st
               else st)
            (sessions st) st.

Definition totalSessions (st : state) : nat := JsMap.size (sessions st).
Definition activeSyncs (st : state) : nat := JsMap.size (syncTimers st).

Inductive op :=
| CreateSession (session : SessionState.t)
| UpdateSession (id : string) (updates : partial)
| SyncSession (now : Z) (id : string)
| TerminateSession (id : string)
| Cleanup (maxAge now : Z).

Definition step (o : op) (st : state) : state :=
  match o with
  | CreateSession s => createSession s st
  | UpdateSession id u => updateSession id u st
  | SyncSession now id => syncSession now id st
  | TerminateSession id => terminateSession id st
  | Cleanup maxAge now => cleanup maxAge now st
  end.

Definition run (ops : list op) (st : state) : state :=
  fold_left (fun st o => step o st) ops st.

End SessionManager.

(** * Properties of the session manager *)

Module SessionManagerCorrect.

Import SessionState SessionManager.

(** ** Clean-up *)

Lemma delete_app_fresh {V : Type} k (v : V) pre r :
  ~ In k (JsMap.keys pre) ->
  JsMap.delete k (pre ++ (k, v) :: r) = pre ++ r.
Proof.
  induction pre as [|[k0 v0] pre IH]; simpl; intros Hnot.
  - now rewrite String.eqb_refl.
  - destruct (String.eqb_spec k k0) as [->|Hne]; [tauto|].
    rewrite IH; [reflexivity | tauto].
Qed.

Lemma terminateSession_sessions id st :
  sessions (terminateSession id st) = JsMap.delete id (sessions st).
Proof.
  unfold terminateSession. now destruct (JsMap.get id (syncTimers st)).
Qed.

Lemma cleanup_fold maxAge now l : forall pre st,
  sessions st = pre ++ l ->
  NoDup (JsMap.keys (pre ++ l)) ->
  sessions (fold_left (fun st e =>
                         if expired maxAge now (snd e)
                         then terminateSession (fst e) st
                         else st) l st)
  = pre ++ filter (fun e => negb (expired maxAge now (snd e))) l.
Proof.
  induction l as [|[k s] l IH]; intros pre st Hs Hnd; simpl.
  - now rewrite app_nil_r in *.
  - destruct (expired maxAge now s) eqn:E; simpl.
    + apply IH.
      * rewrite terminateSession_sessions, Hs. apply delete_app_fresh.
        unfold JsMap.keys in Hnd. rewrite map_app in Hnd. simpl in Hnd.
        apply NoDup_remove_2 in Hnd. intros Hin. apply Hnd.
        apply in_or_app. now left.
      * unfold JsMap.keys in *. rewrite map_app in *. simpl in Hnd.
        now apply NoDup_remove_1 in Hnd.
    + rewrite (IH (pre ++ [(k, s)]) st).
      * now rewrite <- app_assoc.
      * now rewrite <- app_assoc.
      * now rewrite <- app_assoc.
Qed.

Lemma get_filter {V : Type} (p : string * V -> bool) k m :
  NoDup (JsMap.keys m) ->
  JsMap.get k (filter p m)
  = match JsMap.get k m with
    | Some v => if p (k, v) then Some v else None
    | None => None
    end.
Proof.
  induction m as [|[k0 v0] r IH]; simpl; [reflexivity|].
  intros Hnd. inversion Hnd as [|? ? Hnot Hnd']; subst.
  destruct (String.eqb_spec k k0) as [->|Hne].
  - destruct (p (k0, v0)) eqn:P; simpl.
    + now rewrite String.eqb_refl.
    + rewrite IH by exact Hnd'.
      apply JsMap.get_None_not_In in Hnot. now rewrite Hnot.
  - destruct (p (k0, v0)); simpl.
    + apply String.eqb_neq in Hne. rewrite Hne. now apply IH.
    + now apply IH.
Qed.

(** X25. [cleanup] removes exactly the sessions whose last sync is more
    than [maxAge] before [now] and keeps the others, in their order: a
    session found afterwards is within [maxAge], and a session within
    [maxAge] is still found. *)
Theorem cleanup_removes_expired maxAge now st :
  NoDup (JsMap.keys (sessions st)) ->
  sessions (cleanup maxAge now st)
  = filter (fun e => negb (expired maxAge now (snd e))) (sessions st)
  /\ (forall id s,
         getSession id (cleanup maxAge now st) = Some s ->
         getSession id st = Some s /\ (now - lastSync s <= maxAge)%Z)
  /\ (forall id s,
         getSession id st = Some s ->
         (now - lastSync s <= maxAge)%Z ->
         getSession id (cleanup maxAge now st) = Some s).
Proof.
  intros Hnd.
  assert (H : sessions (cleanup maxAge now st)
              = filter (fun e => negb (expired maxAge now (snd e)))
                       (sessions st)).
  { unfold cleanup.
    now rewrite (cleanup_fold maxAge now (sessions st) [] st eq_refl Hnd). }
  split; [exact H|]. unfold getSession. rewrite H. split.
  - intros id s. rewrite get_filter by exact Hnd.
    destruct (JsMap.get id (sessions st)) as [s0|]; [|discriminate].
    simpl. unfold expired.
    destruct (Z.gtb_spec (now - lastSync s0) maxAge); simpl;
      [discriminate|].
    intros Heq. inversion Heq; subst. split; [reflexivity | lia].
  - intros id s Hget Hle. rewrite get_filter by exact Hnd.
    rewrite Hget. simpl. unfold expired.
    destruct (Z.gtb_spec (now - lastSync s) maxAge); [lia | reflexivity].
Qed.

Definition s_old : SessionState.t :=
  SessionState.mk "s1" "web" None full_sync 0 [].
Definition s_new : SessionState.t :=
  SessionState.mk "s2" "android" None event_sourced 90000000 [].
Definition st_sessions : state :=
  run [CreateSession s_old; CreateSession s_new] init.

Lemma cleanup_removes_expired_witness :
  sessions (cleanup 86400000 90000001 st_sessions) = [("s2", s_new)].
Proof.
  apply (cleanup_removes_expired 86400000 90000001 st_sessions).
  repeat constructor; simpl; intuition discriminate.
Defined.

(** ** Sync timers *)

(** Each entry of [syncTimers] is a live interval timer and conversely;
    handles are distinct and below the next one. *)
Definition timers_wf (st : state) : Prop :=
  NoDup (JsMap.keys (syncTimers st))
  /\ NoDup (map fst (intervals st))
  /\ (forall h id, In (h, id) (intervals st) -> h < nextHandle st)
  /\ (forall h id,
         In (h, id) (intervals st) <-> JsMap.get id (syncTimers st) = Some h).

Lemma NoDup_fst_inj {A B : Type} (l : list (A * B)) h a b :
  NoDup (map fst l) -> In (h, a) l -> In (h, b) l -> a = b.
Proof.
  induction l as [|[h0 x] l IH]; simpl; [tauto|].
  intros Hnd Ha Hb. inversion Hnd as [|? ? Hnot Hnd']; subst.
  destruct Ha as [Ha|Ha], Hb as [Hb|Hb].
  - congruence.
  - inversion Ha; subst. exfalso. apply Hnot.
    change h with (fst (h, b)). now apply in_map.
  - inversion Hb; subst. exfalso. apply Hnot.
    change h with (fst (h, a)). now apply in_map.
  - now apply IH.
Qed.

Lemma NoDup_fst_filter {A B : Type} (p : A * B -> bool) l :
  NoDup (map fst l) -> NoDup (map fst (filter p l)).
Proof.
  induction l as [|e l IH]; simpl; [constructor|].
  intros Hnd. inversion Hnd as [|? ? Hnot Hnd']; subst.
  destruct (p e); simpl; [|now apply IH].
  constructor; [|now apply IH].
  intros Hin. apply Hnot. apply in_map_iff in Hin.
  destruct Hin as [e' [He Hin]]. apply filter_In in Hin.
  rewrite <- He. apply in_map. tauto.
Qed.

Lemma clearInterval_In h h' id l :
  In (h', id) (clearInterval h l) <-> In (h', id) l /\ h' <> h.
Proof.
  unfold clearInterval. rewrite filter_In. simpl.
  rewrite negb_true_iff, Nat.eqb_neq. tauto.
Qed.

Lemma timers_wf_setupSync id st : timers_wf st -> timers_wf (setupSync id st).
Proof.
  intros [Hk [Hh [Hf Hiff]]]. unfold setupSync. cbv zeta.
  assert (Hlive : forall h i,
             In (h, i) (match JsMap.get id (syncTimers st) with
                        | Some t => clearInterval t (intervals st)
                        | None => intervals st
                        end)
             <-> In (h, i) (intervals st) /\ i <> id).
  { intros h i. destruct (JsMap.get id (syncTimers st)) as [t|] eqn:G.
    - rewrite clearInterval_In. split.
      + intros [Hin Hne]. split; [exact Hin|]. intros ->.
        apply Hiff in Hin. congruence.
      + intros [Hin Hne]. split; [exact Hin|]. intros ->.
        apply Hiff in G.
        apply Hne. now apply (NoDup_fst_inj (intervals st) t i id).
    - split; [|tauto]. intros Hin. split; [exact Hin|]. intros ->.
      apply Hiff in Hin. congruence. }
  assert (Hsub : forall e,
             In e (match JsMap.get id (syncTimers st) with
                   | Some t => clearInterval t (intervals st)
                   | None => intervals st
                   end) -> In e (intervals st)).
  { intros [h i] Hin. now apply Hlive in Hin. }
  repeat split; simpl.
  - now apply JsMap.NoDup_keys_set.
  - rewrite map_app. simpl. apply MemorySurfaceCorrect.NoDup_snoc.
    + destruct (JsMap.get id (syncTimers st));
        [now apply NoDup_fst_filter | exact Hh].
    + intros Hin. apply in_map_iff in Hin. destruct Hin as [[h i] [He Hin]].
      simpl in He. subst h. apply Hsub, Hf in Hin. lia.
  - intros h i Hin. apply in_app_or in Hin. destruct Hin as [Hin|[He|[]]].
    + apply Hsub, Hf in Hin. lia.
    + inversion He. lia.
  - intros Hin. apply in_app_or in Hin. destruct Hin as [Hin|[He|[]]].
    + apply Hlive in Hin. destruct Hin as [Hin Hne].
      rewrite JsMap.get_set_other by exact Hne. now apply Hiff.
    + inversion He; subst. apply JsMap.get_set_same.
  - intros Hget. apply in_or_app.
    destruct (String.eqb_spec id0 id) as [->|Hne].
    + rewrite JsMap.get_set_same in Hget. inversion Hget. right. now left.
    + rewrite JsMap.get_set_other in Hget by exact Hne.
      left. apply Hlive. split; [now apply Hiff | exact Hne].
Qed.

Lemma timers_wf_set_sessions v st :
  timers_wf st -> timers_wf (set_sessions v st).
Proof. intros H. exact H. Qed.

Lemma timers_wf_terminateSession id st :
  timers_wf st -> timers_wf (terminateSession id st).
Proof.
  intros Hwf. unfold terminateSession. cbv zeta.
  apply timers_wf_set_sessions.
  destruct (JsMap.get id (syncTimers st)) as [t|] eqn:G; [|exact Hwf].
  destruct Hwf as [Hk [Hh [Hf Hiff]]]. repeat split; simpl.
  - now apply CoordinatorCorrect.NoDup_keys_delete.
  - now apply NoDup_fst_filter.
  - intros h i Hin. apply clearInterval_In in Hin. now apply Hf with i.
  - intros Hin. apply clearInterval_In in Hin. destruct Hin as [Hin Hne].
    assert (Hi : id0 <> id).
    { intros ->. apply Hiff in Hin. congruence. }
    rewrite JsMap.get_delete_other by exact Hi. now apply Hiff.
  - intros Hget. destruct (String.eqb_spec id0 id) as [->|Hne].
    + rewrite JsMap.get_delete_same in Hget by exact Hk. discriminate.
    + rewrite JsMap.get_delete_other in Hget by exact Hne.
      apply clearInterval_In. split; [now apply Hiff|].
      intros ->. apply Hiff in Hget. apply Hiff in G.
      apply Hne. now apply (NoDup_fst_inj (intervals st) t id0 id).
Qed.

Lemma timers_wf_step o st : timers_wf st -> timers_wf (step o st).
Proof.
  intros Hwf. destruct o as [s|id u|now id|id|maxAge now]; simpl.
  - unfold createSession. now apply timers_wf_setupSync.
  - unfold updateSession. now destruct (JsMap.get id (sessions st)).
  - unfold syncSession. now destruct (JsMap.get id (sessions st)).
  - now apply timers_wf_terminateSession.
  - unfold cleanup. generalize (sessions st) at 1. intros l.
    revert st Hwf. induction l as [|e l IH]; intros st Hwf; simpl;
      [exact Hwf|].
    apply IH. destruct (expired maxAge now (snd e)); [|exact Hwf].
    now apply timers_wf_terminateSession.
Qed.

(** X26. In every state the session manager reaches, the live sync timers
    are exactly the entries of [syncTimers], one per session id, with
    distinct handles: re-creating a session replaces its timer instead of
    adding one, and after [terminateSession] no timer of the session is
    left. *)
Theorem one_sync_timer_per_session ops id :
  (forall h i,
      In (h, i) (intervals (run ops init))
      <-> JsMap.get i (syncTimers (run ops init)) = Some h)
  /\ NoDup (map fst (intervals (run ops init)))
  /\ NoDup (map snd (intervals (run ops init)))
  /\ (forall h,
         ~ In (h, id) (intervals (terminateSession id (run ops init)))).
Proof.
  assert (Hrun : forall st, timers_wf st -> timers_wf (run ops st)).
  { induction ops as [|o ops IH]; intros st Hwf; simpl; [exact Hwf|].
    apply IH. now apply timers_wf_step. }
  assert (Hwf : timers_wf (run ops init)).
  { apply Hrun. repeat split; simpl; try constructor; try tauto.
    discriminate. }
  pose proof (timers_wf_terminateSession id _ Hwf) as Hwf'.
  destruct Hwf as [Hk [Hh [Hf Hiff]]]. split; [exact Hiff|].
  split; [exact Hh|]. split.
  - assert (Hgen : forall l : list (nat * string),
               NoDup (map fst l) ->
               (forall h i, In (h, i) l ->
                            JsMap.get i (syncTimers (run ops init)) = Some h) ->
               NoDup (map snd l)).
    { induction l as [|[h i] l IHl]; simpl; intros Hnd Hall; constructor.
      - intros Hin. apply in_map_iff in Hin.
        destruct Hin as [[h' i'] [He Hin]]. simpl in He. subst i'.
        inversion Hnd as [|? ? Hnot _]; subst. apply Hnot.
        assert (h' = h).
        { pose proof (Hall h i (or_introl eq_refl)).
          pose proof (Hall h' i (or_intror Hin)). congruence. }
        subst h'. change h with (fst (h, i)). now apply in_map.
      - inversion Hnd; subst. apply IHl; [assumption|].
        intros h' i' Hin. apply Hall. now right. }
    apply Hgen; [exact Hh|]. intros h i Hin. now apply Hiff.
  - intros h Hin. destruct Hwf' as [_ [_ [_ Hiff']]].
    apply Hiff' in Hin. unfold terminateSession in Hin. cbv zeta in Hin.
    destruct (JsMap.get id (syncTimers (run ops init))) as [t|] eqn:G;
      simpl in Hin.
    + rewrite JsMap.get_delete_same in Hin by exact Hk. discriminate.
    + congruence.
Qed.

End SessionManagerCorrect.
